(** * Traffic cellular automaton on a ring: the MPI partitioned program
      (CA/cellular_automaton_mpi.c), the sequential reference program
      (cellular_automaton.c) and the update kernel of the optimised
      sequential program (CA/cellular_automaton_v2.c).

    Cells are [int8_t] (MPI) or [int] (sequential) holding 0 or 1; a C
    buffer is a [list Z] read and written by index.  C [int] values are
    integers of [Z]; [/] and [%] are C's truncating [Z.quot] and [Z.rem].
    Ranks, sizes and cell counts are bounded by the buffers and the
    process group, far inside the range of [int], so no overflow is
    modelled.  A read outside a buffer (undefined in C) yields 0 and a
    write outside does nothing; the theorems state the buffer lengths
    they rely on. *)

From Stdlib Require Import Ascii String.
From stdpp Require Import base numbers option list strings.

Open Scope Z_scope.

(** ** Buffers *)

(** [road[i]] *)
Definition rd (road : list Z) (i : nat) : Z := default 0 (road !! i).

(** C truth value of an integer, and the [int] a C condition evaluates to. *)
Definition truthy (v : Z) : bool := negb (v =? 0).
Definition b2z (b : bool) : Z := if b then 1 else 0.

(** [calloc(count, sizeof(int8_t))]: a zeroed buffer. *)
Definition calloc (count : Z) : list Z := replicate (Z.to_nat count) 0.

(** ** The update kernel, [update_step] of the MPI program *)

Section UpdateKernel.
Variable old_road : list Z.

(** Value stored in [new_road[i]] by one pass of the loop body. *)
Definition new_cell (i : nat) : Z :=
  let left_val := rd old_road (i - 1) in
  let curr_val := rd old_road i in
  let right_val := rd old_road (i + 1) in
  let car_arriving := truthy left_val && negb (truthy curr_val) in
  let car_staying := truthy curr_val && truthy right_val in
  b2z (car_arriving || car_staying).

(** The test [curr_val && !right_val] guarding [cars_moved++]. *)
Definition car_leaves (i : nat) : bool :=
  truthy (rd old_road i) && negb (truthy (rd old_road (i + 1))).

(** One iteration of [for (i = 1; i <= local_n; i++)]: the state is the
    destination buffer and the counter. *)
Definition update_body (st : list Z * Z) (i : nat) : list Z * Z :=
  let '(new_road, cars_moved) := st in
  (<[i := new_cell i]> new_road,
   if car_leaves i then cars_moved + 1 else cars_moved).
End UpdateKernel.

(** [update_step(old_road, new_road, local_n)]: the updated destination
    buffer and the returned [cars_moved].  The two buffers are [restrict]
    pointers, hence separate lists. *)
Definition update_step (old_road new_road : list Z) (local_n : Z)
  : list Z * Z :=
  foldl (update_body old_road) (new_road, 0) (seq 1 (Z.to_nat local_n)).

(** [count_cars_local(road, local_n)] *)
Definition count_cars_local (road : list Z) (local_n : Z) : Z :=
  foldl (λ count i, count + rd road i) 0 (seq 1 (Z.to_nat local_n)).

(** ** Topology and partition, as computed in [main] *)

Definition left_neighbor (rank size : Z) : Z := Z.rem (rank - 1 + size) size.
Definition right_neighbor (rank size : Z) : Z := Z.rem (rank + 1) size.

(** [local_n = n / size; remainder = n % size; if (rank < remainder) local_n++] *)
Definition local_n_of (n size rank : Z) : Z :=
  let local_n := Z.quot n size in
  let remainder := Z.rem n size in
  if rank <? remainder then local_n + 1 else local_n.

(** The counts and displacements loop of [gather_and_print] (rank 0):
    state is [(recvcounts, displs, offset)]. *)
Definition gather_body (n size : Z) (st : list Z * list Z * Z) (i : nat)
  : list Z * list Z * Z :=
  let '(recvcounts, displs, offset) := st in
  let remainder := Z.rem n size in
  let c := Z.quot n size + (if Z.of_nat i <? remainder then 1 else 0) in
  (<[i := c]> recvcounts, <[i := offset]> displs, offset + c).

(** [recvcounts] and [displs] come from [malloc]; each of their [size]
    slots is written by the loop before it is read. *)
Definition gather_layout (n size : Z) : list Z * list Z * Z :=
  foldl (gather_body n size) (calloc size, calloc size, 0)
        (seq 0 (Z.to_nat size)).

Definition recvcounts (n size : Z) : list Z := (gather_layout n size).1.1.
Definition displs (n size : Z) : list Z := (gather_layout n size).1.2.

(** ** Processes and the paired exchange

    One record per MPI process: the local variables of [main] that the
    main loop uses.  The world is the list of processes in rank order. *)

Record worker := Worker {
  local_n : Z;
  nb_left : Z;          (* left_neighbor *)
  nb_right : Z;         (* right_neighbor *)
  road_current : list Z;
  road_next : list Z
}.

(** The arguments of one [MPI_Sendrecv] on one-cell buffers of [road]. *)
Record sendrecv := Sendrecv {
  sendbuf : nat;        (* index of the cell sent *)
  dest : Z;
  sendtag : Z;
  recvbuf : nat;        (* index of the cell received into *)
  source : Z;
  recvtag : Z
}.

(** [exchange_borders(road, local_n, left_neighbor, right_neighbor, comm)]:
    its two [MPI_Sendrecv] calls, in program order. *)
Definition exchange_borders (local_n left_neighbor right_neighbor : Z)
  : sendrecv * sendrecv :=
  ({| sendbuf := 1; dest := left_neighbor; sendtag := 0;
      recvbuf := Z.to_nat (local_n + 1); source := right_neighbor;
      recvtag := 0 |},
   {| sendbuf := Z.to_nat local_n; dest := right_neighbor; sendtag := 1;
      recvbuf := 0; source := left_neighbor; recvtag := 1 |}).

Definition calls_of (p : worker) : sendrecv * sendrecv :=
  exchange_borders (local_n p) (nb_left p) (nb_right p).

Definition store (p : worker) (i : nat) (v : Z) : worker :=
  {| local_n := local_n p; nb_left := nb_left p; nb_right := nb_right p;
     road_current := <[i := v]> (road_current p);
     road_next := road_next p |}.

Section Round.
(** All processes execute the same [MPI_Sendrecv] statement, each with its
    own arguments [call p].  MPI pairs the messages of two processes by
    source, tag and order of posting, so the outcome of a round does not
    depend on how the processes interleave and the round is one step of
    the world.  A round has an outcome, [Some], when every call is one MPI
    defines and every receive is matched; otherwise it has none, [None]. *)
Variable w : list worker.
Variable call : worker → sendrecv.

Definition process (rank : Z) : option worker :=
  if decide (0 ≤ rank) then w !! Z.to_nat rank else None.

(** MPI requires the send buffer and the receive buffer of one
    [MPI_Sendrecv] to be disjoint.  Here both are one cell of [road]: a
    call that names the same cell twice is erroneous, and MPI does not say
    which value is sent or which is left in the cell. *)
Definition disjoint_buffers (c : sendrecv) : bool :=
  negb (sendbuf c =? recvbuf c)%nat.

(** The value process [r] receives.  Its own call and the call of its
    [source] must be calls MPI defines; the [source] must exist and
    address its message, with the expected tag, to [r], otherwise the
    receive never completes.  The message is the content of the sender's
    send cell, which the sender's own receive of the same call does not
    touch. *)
Definition incoming (r : nat) (p : worker) : option Z :=
  if disjoint_buffers (call p) then
    q ← process (source (call p));
    if disjoint_buffers (call q) then
      if decide (dest (call q) = Z.of_nat r
                 ∧ sendtag (call q) = recvtag (call p))
      then Some (rd (road_current q) (sendbuf (call q)))
      else None
    else None
  else None.

Fixpoint deliver (r : nat) (ps : list worker) : option (list worker) :=
  match ps with
  | [] => Some []
  | p :: ps' =>
      v ← incoming r p;
      rest ← deliver (S r) ps';
      Some (store p (recvbuf (call p)) v :: rest)
  end.

Definition sendrecv_round : option (list worker) := deliver 0 w.
End Round.

(** [exchange_borders] executed by every process. *)
Definition exchange (w : list worker) : option (list worker) :=
  w1 ← sendrecv_round w (λ p, (calls_of p).1);
  sendrecv_round w1 (λ p, (calls_of p).2).

(** The rest of the loop body: [update_step] from [road_current] into
    [road_next], then the pointer swap. *)
Definition compute (p : worker) : worker :=
  let '(new_road, local_moved) :=
    update_step (road_current p) (road_next p) (local_n p) in
  {| local_n := local_n p; nb_left := nb_left p; nb_right := nb_right p;
     road_current := new_road;
     road_next := road_current p |}.

Definition iteration (w : list worker) : option (list worker) :=
  w1 ← exchange w; Some (compute <$> (w1 : list worker)).

(** [for (t = 0; t < iterations; t++)] with [t] iterations left to run. *)
Fixpoint main_loop (t : nat) (w : list worker) : option (list worker) :=
  match t with
  | O => Some w
  | S t' => w' ← iteration w; main_loop t' w'
  end.

(** [initialize_road_local]: [draws i] is the outcome of the test
    [rand() / (double)RAND_MAX < density] made for cell [i]. *)
Definition initialize_road_local (road : list Z) (local_n : Z)
    (draws : nat → bool) : list Z :=
  foldl (λ road i, <[i := if draws i then 1 else 0]> road) road
        (seq 1 (Z.to_nat local_n)).

(** Steps 1 to 4 of [main] for one rank. *)
Definition spawn (n size : Z) (draws : Z → nat → bool) (rank : Z) : worker :=
  let local_n := local_n_of n size rank in
  {| local_n := local_n;
     nb_left := left_neighbor rank size;
     nb_right := right_neighbor rank size;
     road_current :=
       initialize_road_local (calloc (local_n + 2)) local_n (draws rank);
     road_next := calloc (local_n + 2) |}.

Definition launch (n size : Z) (draws : Z → nat → bool) : list worker :=
  (λ r, spawn n size draws (Z.of_nat r)) <$> seq 0 (Z.to_nat size).

(** The cells a process owns, and the ring they form in rank order (the
    buffer [MPI_Gatherv] assembles from [&local_road[1]], [local_n]). *)
Definition owned (p : worker) : list Z :=
  take (Z.to_nat (local_n p)) (drop 1 (road_current p)).

Definition lattice (w : list worker) : list Z := concat (owned <$> w).

(** Sum over all processes of [count_cars_local] ([MPI_Allreduce], [MPI_SUM]). *)
Definition total_cars (w : list worker) : Z :=
  foldr Z.add 0 ((λ p, count_cars_local (road_current p) (local_n p)) <$> w).

(** ** The sequential reference program *)

Module Serial.
Section Body.
Variables (old_road : list Z) (n : Z).

Definition new_cell (i : nat) : Z :=
  let left := Z.to_nat (Z.rem (Z.of_nat i - 1 + n) n) in
  let right := Z.to_nat (Z.rem (Z.of_nat i + 1) n) in
  let car_arriving :=
    truthy (rd old_road left) && negb (truthy (rd old_road i)) in
  let car_staying :=
    truthy (rd old_road i) && truthy (rd old_road right) in
  b2z (car_arriving || car_staying).

Definition car_leaves (i : nat) : bool :=
  let right := Z.to_nat (Z.rem (Z.of_nat i + 1) n) in
  truthy (rd old_road i) && negb (truthy (rd old_road right)).

Definition update_body (st : list Z * Z) (i : nat) : list Z * Z :=
  let '(new_road, cars_moved) := st in
  (<[i := new_cell i]> new_road,
   if car_leaves i then cars_moved + 1 else cars_moved).
End Body.

(** [update_step(old_road, new_road, n)] with periodic indices. *)
Definition update_step (old_road new_road : list Z) (n : Z) : list Z * Z :=
  foldl (update_body old_road n) (new_road, 0) (seq 0 (Z.to_nat n)).

(** One pass of the main loop on [(road_current, road_next)]. *)
Definition iteration (n : Z) (st : list Z * list Z) : list Z * list Z :=
  let '(road_current, road_next) := st in
  ((update_step road_current road_next n).1, road_current).

Fixpoint main_loop (t : nat) (n : Z) (st : list Z * list Z)
  : list Z * list Z :=
  match t with
  | O => st
  | S t' => main_loop t' n (iteration n st)
  end.

(** The road after [t] iterations from [road]; [road_next] comes from
    [malloc] and is overwritten in full by the first pass. *)
Definition run (t : nat) (road : list Z) : list Z :=
  let n := Z.of_nat (length road) in
  (main_loop t n (road, calloc n)).1.
(** [initialize_road]: [draws i] is the outcome of the test made for
    cell [i]. *)
Definition initialize_road (road : list Z) (n : Z) (draws : nat → bool)
  : list Z :=
  foldl (λ road i, <[i := if draws i then 1 else 0]> road) road
        (seq 0 (Z.to_nat n)).

(** [count_cars(road, n)] *)
Definition count_cars (road : list Z) (n : Z) : Z :=
  foldl (λ count i, count + rd road i) 0 (seq 0 (Z.to_nat n)).

(** [print_road(road, n)]: the characters written, in order. *)
Definition print_road (road : list Z) (n : Z) : string :=
  foldr (λ i out, String (if truthy (rd road i) then "X" else ".")%char out)
        (String "010"%char EmptyString) (seq 0 (Z.to_nat n)).
End Serial.

(** ** [main] of the MPI program, as seen from the whole process group *)

(** What the group does, in program order.  [Printf] and [Csv] are the
    calls guarded by [rank == 0]; their integer arguments are recorded,
    the [double] ones ([density], [execution_time]) are not. *)
Inductive event :=
  | MPI_Init
  | MPI_Abort (errorcode : Z)
  | MPI_Allreduce (sum : Z)
  | MPI_Barrier
  | Exchange_borders
  | Update_step
  | Printf (format : string) (ints : list Z)
  | Csv (format : string) (ints : list Z)
  | MPI_Finalize.

Record result := Result {
  trace : list event;
  status : option Z;   (* exit status; [None]: the run has no outcome *)
  roads : list worker
}.

Definition loop_events (iterations : Z) : list event :=
  mjoin (replicate (Z.to_nat iterations) [Exchange_borders; Update_step]).

(** [argv] holds [atoi(argv[1])], [atoi(argv[2])], ... for the arguments
    given; [heap count] tells whether [calloc(count, 1)] succeeds.  The
    results file is taken to open. *)
Definition main (size : Z) (argv : list Z) (draws : Z → nat → bool)
    (heap : Z → bool) : result :=
  let n := default 1000 (argv !! 0%nat) in
  let iterations := default 1000 (argv !! 1%nat) in
  let w0 := launch n size draws in
  if negb (forallb (λ p, heap (local_n p + 2)) w0) then
    {| trace := [MPI_Init; MPI_Abort 1]; status := Some 1; roads := [] |}
  else
    let startup :=
      [ MPI_Init;
        MPI_Allreduce (total_cars w0);
        Printf "=== Traffic Simulation - MPI Optimized ===\n" [];
        Printf "MPI Size: %d processes\n" [size];
        Printf "Length: %d, Iterations: %d, Density: %.2f\n" [n; iterations];
        Printf "Total cars: %d\n" [total_cars w0];
        MPI_Barrier ] in
    match main_loop (Z.to_nat iterations) w0 with
    | None => {| trace := startup; status := None; roads := w0 |}
    | Some w =>
        {| trace :=
             startup ++ loop_events iterations ++
             [ MPI_Barrier;
               Printf "\n=== Results (Rank 0 Measurement) ===\n" [];
               Printf "Total execution time: %.6f seconds\n\n" [];
               Csv "mpi,%d,%d,%d,%.9f\n" [n; iterations; size];
               MPI_Finalize ];
           status := Some 0;
           roads := w |}
    end.

Definition mentions (word format : string) : bool :=
  match String.index 0 word format with Some _ => true | None => false end.

(** A printed line is a usage message when its format mentions usage. *)
Definition is_usage (e : event) : bool :=
  match e with
  | Printf format _ => mentions "Usage" format || mentions "usage" format
  | _ => false
  end.

Definition is_simulation (e : event) : bool :=
  match e with Exchange_borders | Update_step => true | _ => false end.


(** A road given cell by cell, dealt to the ranks by the partition: rank
    [r] draws, for its cell [i], the ring cell at offset [displs[r] + i - 1]. *)
Definition deal (road : list Z) (size : Z) (rank : Z) (i : nat) : bool :=
  let offset := rd (displs (Z.of_nat (length road)) size) (Z.to_nat rank) in
  truthy (rd road (Z.to_nat offset + i - 1)).

Definition scatter (road : list Z) (size : Z) : list worker :=
  launch (Z.of_nat (length road)) size (deal road size).

Definition mpi_run (t : nat) (road : list Z) (size : Z) : option (list Z) :=
  lattice <$> main_loop t (scatter road size).

(** ** [gather_and_print] *)

(** The part of [MPI_Gatherv] that concerns rank [r]: it sends [local_n]
    cells from [&local_road[1]]; the root stores [counts[r]] cells at
    [offsets[r]] of [full_road].  MPI requires the two counts to agree. *)
Definition gather_rank (w : list worker) (counts offsets : list Z)
    (acc : option (list Z)) (r : nat) : option (list Z) :=
  full_road ← acc;
  p ← w !! r;
  if decide (local_n p = rd counts r) then
    let d := Z.to_nat (rd offsets r) in
    Some (foldl (λ buf j, <[(d + j)%nat := rd (road_current p) (1 + j)%nat]> buf)
                full_road (seq 0 (Z.to_nat (rd counts r))))
  else None.

Definition MPI_Gatherv (w : list worker) (full_road : list Z)
    (counts offsets : list Z) : option (list Z) :=
  foldl (gather_rank w counts offsets) (Some full_road) (seq 0 (length w)).

(** [gather_and_print] called by every process of [w] with the road
    length [n]: the buffer assembled at rank 0 and the line it prints.
    [full_road] comes from [malloc]. *)
Definition gather_and_print (w : list worker) (n : Z)
  : option (list Z * string) :=
  let size := Z.of_nat (length w) in
  full_road ← MPI_Gatherv w (calloc n) (recvcounts n size) (displs n size);
  Some (full_road,
        foldr (λ i out,
                 String (if truthy (rd full_road i) then "X" else ".")%char out)
              (String "010"%char EmptyString) (seq 0 (Z.to_nat n))).

(** ** The loop-peeled sequential program (CA/cellular_automaton_v2.c) *)

Module Peeled.
(** Buffer access at an [int] index; a negative index is outside. *)
Definition rdz (road : list Z) (i : Z) : Z :=
  if decide (0 ≤ i) then rd road (Z.to_nat i) else 0.

Definition wrz (road : list Z) (i : Z) (v : Z) : list Z :=
  if decide (0 ≤ i) then <[Z.to_nat i := v]> road else road.

(** The two boundary blocks, with their [left], [i] and [right]. *)
Definition edge_cell (old_road : list Z) (left i right : Z) : Z :=
  let car_arriving :=
    truthy (rdz old_road left) && negb (truthy (rdz old_road i)) in
  let car_staying :=
    truthy (rdz old_road i) && truthy (rdz old_road right) in
  b2z (car_arriving || car_staying).

Definition edge_leaves (old_road : list Z) (i right : Z) : bool :=
  truthy (rdz old_road i) && negb (truthy (rdz old_road right)).

(** [update_step(old_road, new_road, n)]: the left boundary block, the
    loop [for (i = 1; i < n - 1; i++)], whose body is that of the MPI
    kernel, and the right boundary block. *)
Definition update_step (old_road new_road : list Z) (n : Z) : list Z * Z :=
  let st1 :=
    (wrz new_road 0 (edge_cell old_road (n - 1) 0 1),
     if edge_leaves old_road 0 1 then 0 + 1 else 0) in
  let '(new_road2, cars_moved2) :=
    foldl (update_body old_road) st1 (seq 1 (Z.to_nat (n - 2))) in
  (wrz new_road2 (n - 1) (edge_cell old_road (n - 2) (n - 1) 0),
   if edge_leaves old_road (n - 1) 0 then cars_moved2 + 1 else cars_moved2).
End Peeled.

(** * Vocabulary of the statements *)

(** A loop that stores [f i] at each index [i] of [s .. s + len - 1]. *)
Definition write_loop (f : nat → Z) (l : list Z) (s len : nat) : list Z :=
  foldl (λ acc i, <[i := f i]> acc) l (seq s len).

(** The transition rule on one cell with its two neighbours. *)
Definition rule (l c r : Z) : Z :=
  b2z (truthy l && negb (truthy c) || truthy c && truthy r).

(** The rule applied along [xs], with [a] before its first cell and [b]
    after its last. *)
Fixpoint rule_window (a : Z) (xs : list Z) (b : Z) : list Z :=
  match xs with
  | [] => []
  | c :: rest => rule a c (hd b rest) :: rule_window c rest b
  end.

(** The rule on a ring: the last cell precedes the first. *)
Definition ring_rule (xs : list Z) : list Z :=
  rule_window (default 0 (last xs)) xs (hd 0 xs).

(** The rule applied segment by segment: each segment sees the last cell
    before it and the first cell after it. *)
Fixpoint windows (a : Z) (segs : list (list Z)) (b : Z) : list (list Z) :=
  match segs with
  | [] => []
  | s :: rest =>
      rule_window a s (hd b (concat rest))
        :: windows (default a (last s)) rest b
  end.

Definition nonempty (segs : list (list Z)) : Prop := Forall (λ s, s ≠ []) segs.

Definition sum_cells (xs : list Z) : Z := foldr Z.add 0 xs.

Definition binary (xs : list Z) : Prop := Forall (λ x, x = 0 ∨ x = 1) xs.

(** A car that leaves the cell [x] for the free cell [y]. *)
Definition moves (x y : Z) : Z := b2z (truthy x && negb (truthy y)).

(** The road of [n] cells with a single car at position [pos]. *)
Definition single_car (n pos : nat) : list Z :=
  (λ i, if decide (i = pos) then 1 else 0) <$> seq 0 n.

(** Cells before the segment of rank [r]: [r] base shares and one extra
    cell for each earlier rank below the remainder. *)
Definition offset_of (n size : Z) (r : nat) : Z :=
  Z.of_nat r * Z.quot n size + Z.min (Z.of_nat r) (Z.max 0 (Z.rem n size)).

(** Values that reach the two ghost slots of [p] in world [w]. *)
Definition ghost_left (w : list worker) (p : worker) : Z :=
  match process w (nb_left p) with
  | Some q => rd (road_current q) (Z.to_nat (local_n q))
  | None => 0
  end.

Definition ghost_right (w : list worker) (p : worker) : Z :=
  match process w (nb_right p) with
  | Some q => rd (road_current q) 1
  | None => 0
  end.

Definition with_halo (w : list worker) (p : worker) : worker :=
  store (store p (Z.to_nat (local_n p + 1)) (ghost_right w p))
        0 (ghost_left w p).

(** The process of rank [r] in a group of [size]: its neighbours are those
    of the ring and its two buffers hold [local_n + 2] cells. *)
Record ring_worker (size : Z) (r : nat) (p : worker) : Prop := {
  rw_left : nb_left p = left_neighbor (Z.of_nat r) size;
  rw_right : nb_right p = right_neighbor (Z.of_nat r) size;
  rw_local : 0 ≤ local_n p;
  rw_current : length (road_current p) = Z.to_nat (local_n p + 2);
  rw_next : length (road_next p) = Z.to_nat (local_n p + 2)
}.

Definition ring_world (w : list worker) : Prop :=
  ∀ r p, w !! r = Some p → ring_worker (Z.of_nat (length w)) r p.

(** Every process owns at least one cell. *)
Definition populated (w : list worker) : Prop :=
  Forall (λ p, 1 ≤ local_n p) w.



(** Every process of [w] holds the share of a road of [n] cells that the
    partition gives its rank. *)
Definition partitioned (n : Z) (w : list worker) : Prop :=
  ∀ (r : nat) p, w !! r = Some p →
    local_n p = local_n_of n (Z.of_nat (length w)) (Z.of_nat r).

(** Cars of [xs] whose next cell is free, with [b] after the last cell. *)
Fixpoint leaving (xs : list Z) (b : Z) : Z :=
  match xs with
  | [] => 0
  | c :: rest => moves c (hd b rest) + leaving rest b
  end.

(** [leaving] segment by segment: each segment sees the first cell after
    it. *)
Fixpoint leaving_windows (segs : list (list Z)) (b : Z) : list Z :=
  match segs with
  | [] => []
  | s :: rest => leaving s (hd b (concat rest)) :: leaving_windows rest b
  end.

(** Number of characters [c] in a printed line. *)
Fixpoint occurrences (c : ascii) (s : string) : nat :=
  match s with
  | EmptyString => 0
  | String c' s' =>
      ((if Ascii.eqb c c' then 1 else 0) + occurrences c s')%nat
  end.

(** * Proofs *)

(** ** Loops that write one cell per index *)

Section WriteLoop.
Variable f : nat → Z.

Lemma length_write_loop l s len : length (write_loop f l s len) = length l.
Proof.
  unfold write_loop. revert l s.
  induction len as [|len IH]; intros l s; simpl; [done|].
  by rewrite IH, length_insert.
Qed.

Lemma write_loop_lookup l s len j :
  write_loop f l s len !! j =
    if decide ((s ≤ j < s + len)%nat ∧ (j < length l)%nat)
    then Some (f j) else l !! j.
Proof.
  unfold write_loop. revert l s.
  induction len as [|len IH]; intros l s; simpl.
  - case_decide; [lia|done].
  - rewrite IH, length_insert.
    destruct (decide (s = j)) as [->|Hne].
    + repeat case_decide; try lia; try done.
      * by rewrite list_lookup_insert_eq by lia.
      * rewrite lookup_ge_None_2; [|rewrite length_insert; lia].
        symmetry. apply lookup_ge_None_2. lia.
    + rewrite list_lookup_insert_ne by done.
      repeat case_decide; try lia; done.
Qed.

Lemma write_loop_window l s len :
  (s + len ≤ length l)%nat →
  take len (drop s (write_loop f l s len)) = f <$> seq s len.
Proof.
  intros Hlen. apply list_eq. intros j.
  rewrite list_lookup_fmap.
  destruct (decide (j < len)%nat) as [Hj|Hj].
  - rewrite lookup_take_lt, lookup_drop, write_loop_lookup by done.
    rewrite lookup_seq_lt by done. simpl.
    case_decide; [done|lia].
  - rewrite lookup_take_ge by lia.
    by rewrite lookup_seq_ge by lia.
Qed.
End WriteLoop.

Lemma update_fold old_road new_road c l :
  foldl (update_body old_road) (new_road, c) l =
    (foldl (λ acc i, <[i := new_cell old_road i]> acc) new_road l,
     c + Z.of_nat (length (filter (λ i, car_leaves old_road i = true) l))).
Proof.
  revert new_road c. induction l as [|i l IH]; intros new_road c; simpl.
  - f_equal. lia.
  - rewrite IH. f_equal. rewrite filter_cons.
    destruct (car_leaves old_road i); case_decide; try done; simpl; lia.
Qed.

Lemma update_step_road old_road new_road n :
  (update_step old_road new_road n).1 =
    write_loop (new_cell old_road) new_road 1 (Z.to_nat n).
Proof. unfold update_step. by rewrite update_fold. Qed.

Lemma update_step_moved old_road new_road n :
  (update_step old_road new_road n).2 =
    Z.of_nat (length (filter (λ i, car_leaves old_road i = true)
                             (seq 1 (Z.to_nat n)))).
Proof. unfold update_step. by rewrite update_fold. Qed.

(** ** The rule on a window of cells *)

Lemma rd_app_r pre l i : rd (pre ++ l) (length pre + i) = rd l i.
Proof. unfold rd. by rewrite lookup_app_r, Nat.add_comm, Nat.add_sub by lia. Qed.

Lemma rd_app_l pre l i : (i < length pre)%nat → rd (pre ++ l) i = rd pre i.
Proof. intros. unfold rd. by rewrite lookup_app_l. Qed.

Lemma rd_middle pre x post : rd (pre ++ x :: post) (length pre) = x.
Proof. by rewrite <- (Nat.add_0_r (length pre)), rd_app_r. Qed.

Lemma new_cell_window xs : ∀ pre a b post,
  new_cell (pre ++ a :: xs ++ b :: post) <$> seq (S (length pre)) (length xs)
  = rule_window a xs b.
Proof.
  induction xs as [|c rest IH]; intros pre a b post; [done|].
  simpl. f_equal.
  - unfold new_cell, rule.
    replace (S (length pre) - 1)%nat with (length pre) by lia.
    replace (S (length pre) + 1)%nat with (length pre + 2)%nat by lia.
    replace (S (length pre)) with (length pre + 1)%nat by lia.
    rewrite rd_middle, !rd_app_r. by destruct rest.
  - specialize (IH (pre ++ [a]) c b post).
    rewrite length_app, <- app_assoc in IH. simpl in IH.
    by rewrite Nat.add_1_r in IH.
Qed.

Lemma rule_window_length a xs b : length (rule_window a xs b) = length xs.
Proof. revert a. induction xs; intros; simpl; auto. Qed.

Lemma last_cons_default (a c : Z) rest :
  default a (last (c :: rest)) = default c (last rest).
Proof. rewrite last_cons. by destruct (last rest). Qed.

Lemma rule_window_app xs : ∀ a ys b,
  rule_window a (xs ++ ys) b =
    rule_window a xs (hd b ys) ++ rule_window (default a (last xs)) ys b.
Proof.
  induction xs as [|c rest IH]; intros a ys b; [done|].
  simpl. rewrite IH. f_equal.
  - by destruct rest.
  - f_equal. f_equal. by rewrite last_cons_default.
Qed.

(** ** Ring arithmetic *)

Lemma left_neighbor_cases rank size :
  0 ≤ rank < size →
  left_neighbor rank size = if decide (rank = 0) then size - 1 else rank - 1.
Proof.
  intros H. unfold left_neighbor. case_decide as H0.
  - subst. replace (0 - 1 + size) with (size - 1) by lia.
    apply Z.rem_small. lia.
  - rewrite Z.rem_mod_nonneg by lia.
    replace (rank - 1 + size) with (rank - 1 + 1 * size) by lia.
    rewrite Z.mod_add by lia. apply Z.mod_small. lia.
Qed.

Lemma right_neighbor_cases rank size :
  0 ≤ rank < size →
  right_neighbor rank size = if decide (rank = size - 1) then 0 else rank + 1.
Proof.
  intros H. unfold right_neighbor. case_decide as H0.
  - subst. replace (size - 1 + 1) with size by lia. apply Z.rem_same. lia.
  - apply Z.rem_small. lia.
Qed.

Lemma left_neighbor_range rank size :
  0 ≤ rank < size → 0 ≤ left_neighbor rank size < size.
Proof. intros H. rewrite left_neighbor_cases by done. case_decide; lia. Qed.

Lemma right_neighbor_range rank size :
  0 ≤ rank < size → 0 ≤ right_neighbor rank size < size.
Proof. intros H. rewrite right_neighbor_cases by done. case_decide; lia. Qed.

Lemma left_right_neighbor rank size :
  0 ≤ rank < size → left_neighbor (right_neighbor rank size) size = rank.
Proof.
  intros H. rewrite left_neighbor_cases by by apply right_neighbor_range.
  rewrite right_neighbor_cases by done. repeat case_decide; lia.
Qed.

Lemma right_left_neighbor rank size :
  0 ≤ rank < size → right_neighbor (left_neighbor rank size) size = rank.
Proof.
  intros H. rewrite right_neighbor_cases by by apply left_neighbor_range.
  rewrite left_neighbor_cases by done. repeat case_decide; lia.
Qed.

(** ** The sequential step is the rule on the ring *)

Lemma serial_new_cell_ring xs (i : nat) :
  (i < length xs)%nat →
  Serial.new_cell xs (Z.of_nat (length xs)) i =
    new_cell (default 0 (last xs) :: xs ++ [hd 0 xs]) (S i).
Proof.
  intros Hi. unfold Serial.new_cell, new_cell.
  set (n := Z.of_nat (length xs)).
  change (Z.rem (Z.of_nat i - 1 + n) n) with (left_neighbor (Z.of_nat i) n).
  change (Z.rem (Z.of_nat i + 1) n) with (right_neighbor (Z.of_nat i) n).
  rewrite left_neighbor_cases, right_neighbor_cases by (unfold n; lia).
  set (a := default 0 (last xs)). set (b := hd 0 xs).
  assert (Hmid : ∀ j, (j < length xs)%nat → rd (a :: xs ++ [b]) (S j) = rd xs j).
  { intros j Hj. change (rd (xs ++ [b]) j = rd xs j). by apply rd_app_l. }
  replace (S i - 1)%nat with i by lia.
  rewrite (Hmid i) by done.
  f_equal. f_equal; [f_equal|f_equal]; f_equal.
  - case_decide as H0.
    + assert (i = 0)%nat as -> by lia. unfold a, rd. simpl.
      rewrite last_lookup. f_equal. f_equal. unfold n. lia.
    + destruct i as [|i]; [lia|]. rewrite Hmid by lia.
      f_equal. lia.
  - replace (S i + 1)%nat with (S (S i)) by lia. case_decide as H0.
    + assert (S i = length xs) as -> by (unfold n in H0; lia).
      change (rd xs (Z.to_nat 0) = rd (xs ++ [b]) (length xs)).
      rewrite rd_middle. unfold b, rd. by destruct xs.
    + rewrite Hmid by (unfold n in H0; lia). f_equal. lia.
Qed.

Lemma serial_update_fold old_road n new_road c l :
  foldl (Serial.update_body old_road n) (new_road, c) l =
    (foldl (λ acc i, <[i := Serial.new_cell old_road n i]> acc) new_road l,
     c + Z.of_nat (length (filter (λ i, Serial.car_leaves old_road n i = true) l))).
Proof.
  revert new_road c. induction l as [|i l IH]; intros new_road c; simpl.
  - f_equal. lia.
  - rewrite IH. f_equal. rewrite filter_cons.
    destruct (Serial.car_leaves old_road n i); case_decide; try done; simpl; lia.
Qed.

Lemma serial_update_step_ring old_road new_road :
  length new_road = length old_road →
  (Serial.update_step old_road new_road (Z.of_nat (length old_road))).1
  = ring_rule old_road.
Proof.
  intros Hlen. unfold Serial.update_step. rewrite serial_update_fold. simpl.
  rewrite Nat2Z.id.
  set (f := Serial.new_cell old_road (Z.of_nat (length old_road))).
  change (foldl _ new_road _) with (write_loop f new_road 0 (length old_road)).
  pose proof (write_loop_window f new_road 0 (length old_road)) as Hw.
  rewrite drop_0, take_ge in Hw by (rewrite length_write_loop; lia).
  rewrite Hw by lia. unfold ring_rule.
  rewrite <- (new_cell_window old_road [] _ _ []). simpl.
  rewrite <- fmap_S_seq, <- list_fmap_compose.
  apply list_fmap_ext. intros j x Hx%lookup_seq. simpl.
  apply serial_new_cell_ring. lia.
Qed.

Lemma serial_run_ring t road :
  Serial.run t road = Nat.iter t ring_rule road.
Proof.
  unfold Serial.run.
  assert (H : ∀ cur nxt, length nxt = length cur →
    (Serial.main_loop t (Z.of_nat (length cur)) (cur, nxt)).1
    = Nat.iter t ring_rule cur).
  { induction t as [|t IH]; intros cur nxt Hlen; [done|].
    rewrite Nat.iter_succ_r. cbn [Serial.main_loop Serial.iteration].
    rewrite serial_update_step_ring by done.
    assert (Hl : length (ring_rule cur) = length cur)
      by apply rule_window_length.
    rewrite <- (IH (ring_rule cur) cur) by lia. by rewrite Hl. }
  apply H. unfold calloc. by rewrite length_replicate, Nat2Z.id.
Qed.

(** ** The rule conserves the number of occupied cells *)

Lemma rule_window_sum xs : ∀ a b,
  binary xs →
  sum_cells (rule_window a xs b) + moves (default a (last xs)) b
  = sum_cells xs + moves a (hd b xs).
Proof.
  induction xs as [|c rest IH]; intros a b Hbin; [simpl; lia|].
  apply Forall_cons in Hbin as [Hc Hrest].
  rewrite last_cons_default. simpl.
  specialize (IH c b Hrest).
  assert (rule a c (hd b rest) + moves c (hd b rest) = c + moves a c) as Hstep.
  { unfold rule, moves.
    destruct Hc as [-> | ->]; destruct (truthy a), (truthy (hd b rest)); done. }
  lia.
Qed.

Lemma ring_rule_sum xs : binary xs → sum_cells (ring_rule xs) = sum_cells xs.
Proof.
  intros Hbin. unfold ring_rule.
  pose proof (rule_window_sum xs (default 0 (last xs)) (hd 0 xs) Hbin) as H.
  destruct xs as [|c rest]; [done|].
  rewrite !last_cons_default in H. simpl in H.
  rewrite last_cons_default. simpl. lia.
Qed.

Lemma rule_window_binary xs : ∀ a b, binary (rule_window a xs b).
Proof.
  induction xs as [|c rest IH]; intros a b; [by constructor|].
  simpl. constructor; [|apply IH].
  unfold rule. destruct (_ || _); auto.
Qed.

Lemma ring_rule_binary xs : binary (ring_rule xs).
Proof. apply rule_window_binary. Qed.

(** ** The exchange on a ring of processes *)

Lemma deliver_fmap w call (g : worker → Z) ps : ∀ r,
  (∀ i p, ps !! i = Some p → incoming w call (r + i) p = Some (g p)) →
  deliver w call r ps = Some ((λ p, store p (recvbuf (call p)) (g p)) <$> ps).
Proof.
  induction ps as [|p ps IH]; intros r H; [done|].
  simpl. rewrite <- (Nat.add_0_r r) at 1.
  rewrite (H 0%nat p) by done. simpl.
  rewrite IH; [done|].
  intros i q Hq. replace (S r + i)%nat with (r + S i)%nat by lia.
  by apply H.
Qed.

Lemma process_lookup (w : list worker) (r : nat) p :
  w !! r = Some p → process w (Z.of_nat r) = Some p.
Proof.
  intros H. unfold process. case_decide; [|lia]. by rewrite Nat2Z.id.
Qed.

Lemma process_in_range (w : list worker) rank :
  0 ≤ rank < Z.of_nat (length w) → ∃ q, process w rank = Some q ∧
    w !! Z.to_nat rank = Some q.
Proof.
  intros H. unfold process. case_decide; [|lia].
  destruct (lookup_lt_is_Some_2 w (Z.to_nat rank)) as [q Hq]; [lia|].
  eauto.
Qed.

Lemma disjoint_first p :
  1 ≤ local_n p → disjoint_buffers (calls_of p).1 = true.
Proof.
  intros Hn. unfold disjoint_buffers. cbn [calls_of exchange_borders fst
    sendbuf recvbuf]. apply negb_true_iff, Nat.eqb_neq. lia.
Qed.

Lemma disjoint_second p :
  1 ≤ local_n p → disjoint_buffers (calls_of p).2 = true.
Proof.
  intros Hn. unfold disjoint_buffers. cbn [calls_of exchange_borders snd
    sendbuf recvbuf]. apply negb_true_iff, Nat.eqb_neq. lia.
Qed.

Lemma incoming_Some w call (r : nat) p q :
  disjoint_buffers (call p) = true →
  process w (source (call p)) = Some q →
  disjoint_buffers (call q) = true →
  dest (call q) = Z.of_nat r →
  sendtag (call q) = recvtag (call p) →
  incoming w call r p = Some (rd (road_current q) (sendbuf (call q))).
Proof.
  intros Hp Hq Hdq Hdest Htag. unfold incoming.
  rewrite Hp, Hq. cbn [mbind option_bind]. rewrite Hdq.
  by rewrite decide_True.
Qed.

Lemma first_round w :
  ring_world w → populated w →
  sendrecv_round w (λ p, (calls_of p).1) =
    Some ((λ p, store p (Z.to_nat (local_n p + 1)) (ghost_right w p)) <$> w).
Proof.
  intros Hw Hpop. unfold sendrecv_round.
  apply (deliver_fmap w (λ p, (calls_of p).1) (ghost_right w) w 0%nat).
  intros r p Hp.
  destruct (Hw r p Hp) as [_ Hr _ _ _].
  pose proof (lookup_lt_Some _ _ _ Hp) as Hlt.
  pose proof (proj1 (Forall_lookup _ _) Hpop r p Hp) as Hown. simpl in Hown.
  destruct (process_in_range w (nb_right p)) as (q & Hpq & Hq).
  { rewrite Hr. apply right_neighbor_range. lia. }
  pose proof (proj1 (Forall_lookup _ _) Hpop _ q Hq) as Hownq. simpl in Hownq.
  destruct (Hw _ q Hq) as [Hl _ _ _ _].
  rewrite (incoming_Some w (λ p, (calls_of p).1) (0 + r) p q).
  - unfold ghost_right. by rewrite Hpq.
  - by apply disjoint_first.
  - exact Hpq.
  - by apply disjoint_first.
  - cbn [calls_of exchange_borders fst dest]. rewrite Hl, Hr.
    rewrite Z2Nat.id by (apply right_neighbor_range; lia).
    apply left_right_neighbor. lia.
  - done.
Qed.

Lemma second_round w w1 :
  ring_world w → populated w →
  w1 = (λ p, store p (Z.to_nat (local_n p + 1)) (ghost_right w p)) <$> w →
  sendrecv_round w1 (λ p, (calls_of p).2) = Some (with_halo w <$> w).
Proof.
  intros Hw Hpop ->. unfold sendrecv_round.
  rewrite (deliver_fmap _ (λ p, (calls_of p).2) (ghost_left w)).
  - by rewrite <- list_fmap_compose.
  - intros r p1 Hp1.
    rewrite list_lookup_fmap in Hp1.
    destruct (w !! r) as [p|] eqn:Hp; [|done]. simpl in Hp1.
    injection Hp1 as <-.
    destruct (Hw r p Hp) as [Hl _ _ _ _].
    pose proof (lookup_lt_Some _ _ _ Hp) as Hlt.
    pose proof (proj1 (Forall_lookup _ _) Hpop r p Hp) as Hown.
    simpl in Hown.
    destruct (process_in_range w (nb_left p)) as (q & Hpq & Hq).
    { rewrite Hl. apply left_neighbor_range. lia. }
    pose proof (proj1 (Forall_lookup _ _) Hpop _ q Hq) as Hownq.
    simpl in Hownq.
    destruct (Hw _ q Hq) as [_ Hr Hn _ _].
    set (w1 := (λ p, store p (Z.to_nat (local_n p + 1)) (ghost_right w p)) <$> w).
    set (q1 := store q (Z.to_nat (local_n q + 1)) (ghost_right w q)).
    rewrite (incoming_Some w1 (λ p, (calls_of p).2) (0 + r) _ q1).
    + unfold ghost_left. cbn [store nb_left]. rewrite Hpq. f_equal.
      unfold q1. cbn [calls_of exchange_borders snd sendbuf store
                       road_current local_n].
      unfold rd. by rewrite list_lookup_insert_ne by lia.
    + by apply disjoint_second.
    + cbn [calls_of exchange_borders snd source store nb_left].
      unfold process in *. case_decide; [|done].
      unfold w1. by rewrite list_lookup_fmap, Hpq.
    + by apply disjoint_second.
    + cbn [calls_of exchange_borders snd dest q1 store nb_right].
      rewrite Hr, Hl.
      rewrite Z2Nat.id by (apply left_neighbor_range; lia).
      apply right_left_neighbor. lia.
    + done.
Qed.

Lemma exchange_ring w :
  ring_world w → populated w → exchange w = Some (with_halo w <$> w).
Proof.
  intros Hw Hpop. unfold exchange. rewrite first_round by done. simpl.
  by apply second_round.
Qed.

(** ** Cutting a window into segments *)

Lemma last_app_default (a : Z) xs ys :
  default a (last (xs ++ ys)) = default (default a (last xs)) (last ys).
Proof. rewrite last_app. by destruct (last ys). Qed.

Lemma windows_concat segs : ∀ a b,
  concat (windows a segs b) = rule_window a (concat segs) b.
Proof.
  induction segs as [|s rest IH]; intros a b; [done|].
  simpl. by rewrite IH, rule_window_app.
Qed.

Lemma windows_length segs : ∀ a b, length (windows a segs b) = length segs.
Proof. induction segs; intros; simpl; auto. Qed.

Lemma windows_lookup segs : ∀ a b r s,
  nonempty segs → segs !! r = Some s →
  windows a segs b !! r =
    Some (rule_window
            (match r with
             | O => a
             | S r' => default 0 (last (default [] (segs !! r')))
             end)
            s
            (match segs !! S r with Some s' => hd 0 s' | None => b end)).
Proof.
  induction segs as [|s0 rest IH]; intros a b r s Hne Hs; [done|].
  apply Forall_cons in Hne as [Hs0 Hrest].
  destruct r as [|r]; simpl in *.
  - injection Hs as ->. do 2 f_equal.
    destruct rest as [|s' rest']; [done|].
    apply Forall_cons in Hrest as [Hs' _]. simpl. by destruct s'.
  - rewrite (IH _ b r s) by done. do 2 f_equal.
    destruct r as [|r']; [|done]. simpl.
    destruct (last s0) eqn:Hl; [done|].
    by apply last_None in Hl.
Qed.

Lemma last_concat segs :
  nonempty segs →
  default 0 (last (concat segs))
  = default 0 (last (default [] (segs !! (length segs - 1)%nat))).
Proof.
  induction segs as [|s rest IH]; intros Hne; [done|].
  apply Forall_cons in Hne as [Hs Hrest]. simpl.
  rewrite last_app_default, Nat.sub_0_r.
  destruct rest as [|s' rest']; [done|].
  specialize (IH Hrest). simpl in IH. rewrite Nat.sub_0_r in IH.
  simpl. rewrite <- IH.
  apply Forall_cons in Hrest as [Hs' _].
  destruct (last (s' ++ concat rest')) eqn:Hl; [done|].
  apply last_None in Hl. by destruct s'.
Qed.

Lemma hd_concat segs :
  nonempty segs → hd 0 (concat segs) = hd 0 (default [] (segs !! 0%nat)).
Proof.
  intros Hne. destruct segs as [|s rest]; [done|].
  apply Forall_cons in Hne as [Hs _]. simpl. by destruct s.
Qed.

(** ** One iteration on a ring of processes *)

Lemma halo_shape w p :
  0 ≤ local_n p →
  length (road_current p) = Z.to_nat (local_n p + 2) →
  road_current (with_halo w p)
  = ghost_left w p :: owned p ++ [ghost_right w p].
Proof.
  intros Hn Hlen. unfold with_halo, owned. simpl.
  destruct (road_current p) as [|c0 rest]; simpl in *; [lia|].
  replace (Z.to_nat (local_n p + 1)) with (S (Z.to_nat (local_n p))) by lia.
  simpl. f_equal. rewrite drop_0.
  rewrite insert_take_drop by lia. f_equal.
  by rewrite drop_ge by lia.
Qed.

Lemma compute_current p :
  road_current (compute p)
  = (update_step (road_current p) (road_next p) (local_n p)).1.
Proof. unfold compute. by destruct (update_step _ _ _). Qed.

Lemma compute_next p : road_next (compute p) = road_current p.
Proof. unfold compute. by destruct (update_step _ _ _). Qed.

Lemma compute_local_n p : local_n (compute p) = local_n p.
Proof. unfold compute. by destruct (update_step _ _ _). Qed.

Lemma compute_nb_left p : nb_left (compute p) = nb_left p.
Proof. unfold compute. by destruct (update_step _ _ _). Qed.

Lemma compute_nb_right p : nb_right (compute p) = nb_right p.
Proof. unfold compute. by destruct (update_step _ _ _). Qed.

Lemma owned_length p :
  0 ≤ local_n p →
  length (road_current p) = Z.to_nat (local_n p + 2) →
  length (owned p) = Z.to_nat (local_n p).
Proof.
  intros Hn Hlen. unfold owned. rewrite length_take, length_drop. lia.
Qed.

Lemma owned_compute_halo w p :
  0 ≤ local_n p →
  length (road_current p) = Z.to_nat (local_n p + 2) →
  length (road_next p) = Z.to_nat (local_n p + 2) →
  owned (compute (with_halo w p))
  = rule_window (ghost_left w p) (owned p) (ghost_right w p).
Proof.
  intros Hn Hcur Hnext. unfold owned at 1.
  rewrite compute_local_n, compute_current, update_step_road.
  change (local_n (with_halo w p)) with (local_n p).
  change (road_next (with_halo w p)) with (road_next p).
  rewrite write_loop_window by lia.
  rewrite halo_shape by done.
  rewrite <- (owned_length p) by done.
  apply (new_cell_window (owned p) [] _ _ []).
Qed.

Lemma iteration_ring w :
  ring_world w → populated w →
  iteration w = Some (compute <$> (with_halo w <$> w)).
Proof. intros Hw Hpop. unfold iteration. by rewrite exchange_ring. Qed.

Lemma iteration_ring_world w w' :
  ring_world w → populated w → iteration w = Some w' → ring_world w'.
Proof.
  intros Hw Hpop. rewrite iteration_ring by done. intros [= <-] r p' Hp'.
  rewrite !length_fmap. rewrite !list_lookup_fmap in Hp'.
  destruct (w !! r) as [p|] eqn:Hp; [|done]. injection Hp' as <-.
  destruct (Hw r p Hp) as [Hl Hr Hn Hc Hx].
  split.
  - by rewrite compute_nb_left.
  - by rewrite compute_nb_right.
  - by rewrite compute_local_n.
  - rewrite compute_current, update_step_road, length_write_loop,
      compute_local_n. done.
  - rewrite compute_next, compute_local_n. simpl. by rewrite !length_insert.
Qed.

Lemma iteration_populated w w' :
  ring_world w → populated w → iteration w = Some w' → populated w'.
Proof.
  intros Hw Hpop. rewrite iteration_ring by done. intros [= <-].
  unfold populated in *. rewrite !Forall_fmap.
  eapply Forall_impl; [exact Hpop|]. intros p Hp. simpl.
  by rewrite compute_local_n.
Qed.

Lemma hd_lookup (xs : list Z) : hd 0 xs = rd xs 0.
Proof. by destruct xs. Qed.

Lemma last_owned p :
  1 ≤ local_n p →
  length (road_current p) = Z.to_nat (local_n p + 2) →
  default 0 (last (owned p)) = rd (road_current p) (Z.to_nat (local_n p)).
Proof.
  intros Hn Hlen. rewrite last_lookup, owned_length by lia.
  unfold owned, rd. rewrite lookup_take_lt, lookup_drop by lia.
  do 2 f_equal. lia.
Qed.

Lemma hd_owned p :
  1 ≤ local_n p → hd 0 (owned p) = rd (road_current p) 1.
Proof.
  intros Hn. rewrite hd_lookup. unfold owned, rd.
  by rewrite lookup_take_lt, lookup_drop by lia.
Qed.

Lemma owned_nonempty w : ring_world w → populated w → nonempty (owned <$> w).
Proof.
  intros Hw Hpop. unfold nonempty. rewrite Forall_fmap.
  apply Forall_lookup. intros r p Hp. simpl.
  destruct (Hw r p Hp) as [_ _ _ Hc _].
  pose proof (proj1 (Forall_lookup _ _) Hpop r p Hp) as Hn. simpl in Hn.
  intros Hnil. apply (f_equal length) in Hnil.
  rewrite owned_length in Hnil by lia. simpl in Hnil. lia.
Qed.

Lemma ghost_left_ring w r p :
  ring_world w → populated w → w !! r = Some p →
  ghost_left w p =
    match r with
    | O => default 0 (last (lattice w))
    | S r' => default 0 (last (default [] ((owned <$> w) !! r')))
    end.
Proof.
  intros Hw Hpop Hp.
  destruct (Hw r p Hp) as [Hl _ _ _ _].
  pose proof (lookup_lt_Some _ _ _ Hp) as Hlt.
  unfold ghost_left. rewrite Hl.
  destruct (process_in_range w (left_neighbor (Z.of_nat r) (Z.of_nat (length w))))
    as (q & -> & Hq); [apply left_neighbor_range; lia|].
  destruct (Hw _ q Hq) as [_ _ _ Hc _].
  pose proof (proj1 (Forall_lookup _ _) Hpop _ q Hq) as Hn. simpl in Hn.
  rewrite <- last_owned by done.
  rewrite left_neighbor_cases in Hq by lia.
  destruct r as [|r'].
  - unfold lattice. rewrite last_concat by by apply owned_nonempty.
    rewrite length_fmap, list_lookup_fmap.
    rewrite decide_True in Hq by done.
    replace (length w - 1)%nat with (Z.to_nat (Z.of_nat (length w) - 1)) by lia.
    by rewrite Hq.
  - rewrite decide_False in Hq by lia. rewrite list_lookup_fmap.
    replace (Z.to_nat (Z.of_nat (S r') - 1)) with r' in Hq by lia.
    by rewrite Hq.
Qed.

Lemma ghost_right_ring w r p :
  ring_world w → populated w → w !! r = Some p →
  ghost_right w p =
    match (owned <$> w) !! S r with
    | Some s' => hd 0 s'
    | None => hd 0 (lattice w)
    end.
Proof.
  intros Hw Hpop Hp.
  destruct (Hw r p Hp) as [_ Hr _ _ _].
  pose proof (lookup_lt_Some _ _ _ Hp) as Hlt.
  unfold ghost_right. rewrite Hr.
  destruct (process_in_range w (right_neighbor (Z.of_nat r) (Z.of_nat (length w))))
    as (q & -> & Hq); [apply right_neighbor_range; lia|].
  pose proof (proj1 (Forall_lookup _ _) Hpop _ q Hq) as Hn. simpl in Hn.
  rewrite <- hd_owned by done.
  rewrite right_neighbor_cases in Hq by lia.
  rewrite list_lookup_fmap. case_decide as Hlast.
  - rewrite lookup_ge_None_2 by lia. simpl.
    unfold lattice. rewrite hd_concat by by apply owned_nonempty.
    rewrite list_lookup_fmap. change (Z.to_nat 0) with 0%nat in Hq.
    by rewrite Hq.
  - replace (Z.to_nat (Z.of_nat r + 1)) with (S r) in Hq by lia.
    by rewrite Hq.
Qed.

(** One iteration of the partitioned program is one application of the
    rule to the ring of owned cells. *)
Lemma lattice_iteration w w' :
  ring_world w → populated w → iteration w = Some w' →
  lattice w' = ring_rule (lattice w).
Proof.
  intros Hw Hpop. rewrite iteration_ring by done. intros [= <-].
  unfold ring_rule.
  transitivity (concat (windows (default 0 (last (lattice w))) (owned <$> w)
                                (hd 0 (lattice w))));
    [|apply windows_concat].
  unfold lattice at 1. f_equal.
  apply list_eq. intros r.
  rewrite !list_lookup_fmap.
  destruct (w !! r) as [p|] eqn:Hp; simpl.
  - destruct (Hw r p Hp) as [_ _ Hn Hc Hx].
    rewrite owned_compute_halo by done.
    rewrite (windows_lookup _ _ _ r (owned p));
      [|by apply owned_nonempty|by rewrite list_lookup_fmap, Hp].
    rewrite (ghost_left_ring w r p), (ghost_right_ring w r p) by done.
    done.
  - symmetry. apply lookup_ge_None_2.
    rewrite windows_length, length_fmap. by apply lookup_ge_None_1.
Qed.

(** ** The partition and the gather layout *)

Lemma offset_of_succ n size r :
  offset_of n size (S r)
  = offset_of n size r + local_n_of n size (Z.of_nat r).
Proof. unfold offset_of, local_n_of. case_match; lia. Qed.

Lemma gather_fold n size len : ∀ s rc dp,
  foldl (gather_body n size) (rc, dp, offset_of n size s) (seq s len) =
    (write_loop (λ i, local_n_of n size (Z.of_nat i)) rc s len,
     write_loop (offset_of n size) dp s len,
     offset_of n size (s + len)).
Proof.
  induction len as [|len IH]; intros s rc dp.
  - simpl. by rewrite Nat.add_0_r.
  - cbn [seq foldl]. unfold gather_body at 2.
    replace (offset_of n size s + _) with (offset_of n size (S s)).
    + replace (Z.quot n size + _) with (local_n_of n size (Z.of_nat s)).
      * rewrite IH. by rewrite Nat.add_succ_r.
      * unfold local_n_of. case_match; lia.
    + rewrite offset_of_succ. unfold local_n_of. case_match; lia.
Qed.

Lemma gather_layout_eq n size :
  gather_layout n size =
    (write_loop (λ i, local_n_of n size (Z.of_nat i)) (calloc size) 0
                (Z.to_nat size),
     write_loop (offset_of n size) (calloc size) 0 (Z.to_nat size),
     offset_of n size (Z.to_nat size)).
Proof.
  unfold gather_layout.
  replace 0 with (offset_of n size 0) at 1 by (unfold offset_of; lia).
  apply gather_fold.
Qed.

Lemma calloc_length count : length (calloc count) = Z.to_nat count.
Proof. unfold calloc. apply length_replicate. Qed.

Lemma recvcounts_lookup n size (i : nat) :
  (i < Z.to_nat size)%nat →
  recvcounts n size !! i = Some (local_n_of n size (Z.of_nat i)).
Proof.
  intros Hi. unfold recvcounts. rewrite gather_layout_eq. simpl.
  rewrite write_loop_lookup, calloc_length. case_decide; [done|lia].
Qed.

Lemma displs_lookup n size (i : nat) :
  (i < Z.to_nat size)%nat →
  displs n size !! i = Some (offset_of n size i).
Proof.
  intros Hi. unfold displs. rewrite gather_layout_eq. simpl.
  rewrite write_loop_lookup, calloc_length. case_decide; [done|lia].
Qed.

Lemma recvcounts_length n size : length (recvcounts n size) = Z.to_nat size.
Proof.
  unfold recvcounts. rewrite gather_layout_eq. simpl.
  by rewrite length_write_loop, calloc_length.
Qed.

Lemma displs_length n size : length (displs n size) = Z.to_nat size.
Proof.
  unfold displs. rewrite gather_layout_eq. simpl.
  by rewrite length_write_loop, calloc_length.
Qed.

Lemma offset_of_total n size :
  0 ≤ n → 1 ≤ size → offset_of n size (Z.to_nat size) = n.
Proof.
  intros Hn Hs. unfold offset_of. rewrite Z2Nat.id by lia.
  pose proof (Z.rem_bound_pos n size ltac:(lia) ltac:(lia)).
  pose proof (Z.quot_rem' n size). lia.
Qed.

Lemma local_n_of_lower n size rank :
  0 ≤ n → 1 ≤ size → Z.quot n size ≤ local_n_of n size rank.
Proof. intros. unfold local_n_of. case_match; lia. Qed.

Lemma local_n_of_nonneg n size rank :
  0 ≤ n → 1 ≤ size → 0 ≤ local_n_of n size rank.
Proof.
  intros Hn Hs. pose proof (local_n_of_lower n size rank Hn Hs).
  pose proof (Z.quot_pos n size). lia.
Qed.

Lemma local_n_of_positive n size rank :
  1 ≤ size ≤ n → 1 ≤ local_n_of n size rank.
Proof.
  intros Hs. pose proof (local_n_of_lower n size rank ltac:(lia) ltac:(lia)).
  assert (1 ≤ Z.quot n size); [|lia].
  apply Z.quot_le_lower_bound; lia.
Qed.

(** ** The initial world *)

Lemma initialize_road_local_eq road local_n draws :
  initialize_road_local road local_n draws
  = write_loop (λ i, if draws i then 1 else 0) road 1 (Z.to_nat local_n).
Proof. done. Qed.

Lemma launch_lookup n size draws (r : nat) :
  (r < Z.to_nat size)%nat →
  launch n size draws !! r = Some (spawn n size draws (Z.of_nat r)).
Proof.
  intros Hr. unfold launch. rewrite list_lookup_fmap, lookup_seq_lt by done.
  done.
Qed.

Lemma launch_length n size draws :
  length (launch n size draws) = Z.to_nat size.
Proof. unfold launch. by rewrite length_fmap, length_seq. Qed.

Lemma launch_ring_world n size draws :
  0 ≤ n → 1 ≤ size → ring_world (launch n size draws).
Proof.
  intros Hn Hs r p Hp.
  pose proof (lookup_lt_Some _ _ _ Hp) as Hr. rewrite launch_length in Hr.
  rewrite launch_lookup in Hp by done. injection Hp as <-.
  rewrite launch_length, Z2Nat.id by lia.
  pose proof (local_n_of_nonneg n size (Z.of_nat r) Hn Hs).
  split; simpl; try done.
  - rewrite initialize_road_local_eq, length_write_loop. apply calloc_length.
  - apply calloc_length.
Qed.

Lemma launch_populated n size draws :
  1 ≤ size ≤ n → populated (launch n size draws).
Proof.
  intros Hs. apply Forall_lookup. intros r p Hp.
  pose proof (lookup_lt_Some _ _ _ Hp) as Hr. rewrite launch_length in Hr.
  rewrite launch_lookup in Hp by done. injection Hp as <-.
  simpl. by apply local_n_of_positive.
Qed.

Lemma owned_spawn n size draws rank :
  0 ≤ local_n_of n size rank →
  owned (spawn n size draws rank)
  = (λ i, if draws rank i then 1 else 0)
      <$> seq 1 (Z.to_nat (local_n_of n size rank)).
Proof.
  intros Hn. unfold owned, spawn. simpl.
  rewrite initialize_road_local_eq.
  apply write_loop_window. rewrite calloc_length. lia.
Qed.

Lemma binary_rd road i : binary road → rd road i = 0 ∨ rd road i = 1.
Proof.
  intros Hb. unfold rd. destruct (road !! i) as [x|] eqn:Hx; [|by left].
  simpl. exact (proj1 (Forall_lookup _ _) Hb i x Hx).
Qed.

Lemma deal_eq road size (r i : nat) :
  (r < Z.to_nat size)%nat →
  deal road size (Z.of_nat r) i
  = truthy (rd road (Z.to_nat (offset_of (Z.of_nat (length road)) size r)
                     + i - 1)).
Proof.
  intros Hr. unfold deal. rewrite Nat2Z.id.
  unfold rd at 2. by rewrite displs_lookup.
Qed.

Lemma owned_scatter road size (r : nat) :
  binary road → 1 ≤ size → (r < Z.to_nat size)%nat →
  let n := Z.of_nat (length road) in
  owned (spawn n size (deal road size) (Z.of_nat r))
  = take (Z.to_nat (local_n_of n size (Z.of_nat r)))
         (drop (Z.to_nat (offset_of n size r)) road).
Proof.
  intros Hb Hs Hr n.
  pose proof (local_n_of_nonneg n size (Z.of_nat r) ltac:(lia) Hs) as Hn.
  rewrite owned_spawn by done.
  assert (Hoff : offset_of n size (S r) ≤ n).
  { rewrite <- (offset_of_total n size) at 2 by lia.
    unfold offset_of. 
    pose proof (Z.quot_pos n size ltac:(lia) ltac:(lia)). nia. }
  rewrite offset_of_succ in Hoff.
  assert (0 ≤ offset_of n size r).
  { unfold offset_of. pose proof (Z.quot_pos n size ltac:(lia) ltac:(lia)). nia. }
  apply list_eq. intros j. rewrite list_lookup_fmap.
  destruct (decide (j < Z.to_nat (local_n_of n size (Z.of_nat r)))%nat) as [Hj|Hj].
  - rewrite lookup_seq_lt, lookup_take_lt, lookup_drop by done. simpl.
    rewrite deal_eq by done. fold n.
    replace (Z.to_nat (offset_of n size r) + S j - 1)%nat
      with (Z.to_nat (offset_of n size r) + j)%nat by lia.
    destruct (lookup_lt_is_Some_2 road (Z.to_nat (offset_of n size r) + j))
      as [x Hx]; [unfold n in *; lia|].
    rewrite Hx. unfold rd. rewrite Hx. simpl. f_equal.
    destruct (proj1 (Forall_lookup _ _) Hb _ x Hx) as [-> | ->]; done.
  - rewrite lookup_seq_ge, lookup_take_ge by lia. done.
Qed.

Lemma offset_of_nonneg n size r : 0 ≤ n → 1 ≤ size → 0 ≤ offset_of n size r.
Proof.
  intros Hn Hs. unfold offset_of.
  pose proof (Z.quot_pos n size ltac:(lia) ltac:(lia)). nia.
Qed.

Lemma slices_concat n size (road : list Z) (k : nat) :
  0 ≤ n → 1 ≤ size →
  concat ((λ r, take (Z.to_nat (local_n_of n size (Z.of_nat r)))
                     (drop (Z.to_nat (offset_of n size r)) road))
            <$> seq 0 k)
  = take (Z.to_nat (offset_of n size k)) road.
Proof.
  intros Hn Hs. induction k as [|k IH].
  - simpl. replace (offset_of n size 0) with 0 by (unfold offset_of; lia).
    done.
  - rewrite seq_S, fmap_app, concat_app, IH. simpl.
    rewrite app_nil_r, take_take_drop. f_equal.
    rewrite offset_of_succ.
    pose proof (offset_of_nonneg n size k Hn Hs).
    pose proof (local_n_of_nonneg n size (Z.of_nat k) Hn Hs). lia.
Qed.

(** Dealing a road of 0/1 cells to the ranks and reading the owned cells
    back in rank order gives the road. *)
Lemma lattice_scatter road size :
  binary road → 1 ≤ size → lattice (scatter road size) = road.
Proof.
  intros Hb Hs. unfold lattice, scatter, launch.
  rewrite <- list_fmap_compose.
  set (n := Z.of_nat (length road)).
  rewrite (list_fmap_ext _
    (λ r, take (Z.to_nat (local_n_of n size (Z.of_nat r)))
               (drop (Z.to_nat (offset_of n size r)) road))).
  - rewrite slices_concat, offset_of_total by lia.
    apply take_ge. lia.
  - intros i r Hr%lookup_seq. simpl. apply owned_scatter; [done..|lia].
Qed.

(** ** Runs of the main loop *)

Lemma main_loop_ring t : ∀ w,
  ring_world w → populated w →
  ∃ w', main_loop t w = Some w' ∧ ring_world w' ∧ populated w' ∧
        lattice w' = Nat.iter t ring_rule (lattice w).
Proof.
  induction t as [|t IH]; intros w Hw Hpop; [by exists w|].
  pose proof (iteration_ring w Hw Hpop) as Hit.
  cbn [main_loop]. rewrite Hit. simpl.
  destruct (IH _ (iteration_ring_world _ _ Hw Hpop Hit)
                 (iteration_populated _ _ Hw Hpop Hit))
    as (w' & Hrun & Hw' & Hpop' & Hlat).
  exists w'. split_and!; try done.
  rewrite Hlat, (lattice_iteration w _ Hw Hpop Hit).
  exact (eq_sym (Nat.iter_succ_r t ring_rule (lattice w))).
Qed.

Lemma mpi_run_ring t road size :
  binary road → 1 ≤ size ≤ Z.of_nat (length road) →
  mpi_run t road size = Some (Nat.iter t ring_rule road).
Proof.
  intros Hb Hs. unfold mpi_run, scatter.
  destruct (main_loop_ring t (launch (Z.of_nat (length road)) size (deal road size)))
    as (w' & -> & _ & _ & Hlat).
  - apply launch_ring_world; lia.
  - by apply launch_populated.
  - simpl. f_equal. rewrite Hlat. f_equal.
    apply lattice_scatter; [done|lia].
Qed.

(** ** Counting cars *)

Lemma foldl_add_sum (f : nat → Z) l : ∀ c,
  foldl (λ count i, count + f i) c l = c + sum_cells (f <$> l).
Proof.
  unfold sum_cells.
  induction l as [|i l IH]; intros c; [simpl; lia|].
  rewrite fmap_cons. cbn [foldl foldr]. rewrite IH. lia.
Qed.

Lemma owned_as_reads p :
  0 ≤ local_n p →
  length (road_current p) = Z.to_nat (local_n p + 2) →
  owned p = rd (road_current p) <$> seq 1 (Z.to_nat (local_n p)).
Proof.
  intros Hn Hlen. apply list_eq. intros j. unfold owned.
  rewrite list_lookup_fmap.
  destruct (decide (j < Z.to_nat (local_n p))%nat) as [Hj|Hj].
  - rewrite lookup_take_lt, lookup_drop, lookup_seq_lt by done. simpl.
    unfold rd.
    destruct (lookup_lt_is_Some_2 (road_current p) (S j)) as [x Hx]; [lia|].
    by rewrite Hx.
  - by rewrite lookup_take_ge, lookup_seq_ge by lia.
Qed.

Lemma count_cars_local_owned p :
  0 ≤ local_n p →
  length (road_current p) = Z.to_nat (local_n p + 2) →
  count_cars_local (road_current p) (local_n p) = sum_cells (owned p).
Proof.
  intros Hn Hlen. unfold count_cars_local.
  rewrite foldl_add_sum, owned_as_reads by done. lia.
Qed.

Lemma sum_cells_app xs ys :
  sum_cells (xs ++ ys) = sum_cells xs + sum_cells ys.
Proof. unfold sum_cells. induction xs as [|x xs IH]; simpl; lia. Qed.

Lemma total_cars_lattice w :
  ring_world w → total_cars w = sum_cells (lattice w).
Proof.
  intros Hw. unfold total_cars, lattice.
  assert (H : Forall (λ p, 0 ≤ local_n p ∧
              length (road_current p) = Z.to_nat (local_n p + 2)) w).
  { apply Forall_lookup. intros r p Hp. by destruct (Hw r p Hp). }
  clear Hw. induction H as [|p w [Hn Hlen] _ IH]; [done|].
  rewrite !fmap_cons. cbn [foldr concat].
  rewrite sum_cells_app, count_cars_local_owned, IH by done. done.
Qed.

Lemma binary_concat segs : Forall binary segs → binary (concat segs).
Proof.
  induction 1 as [|s segs Hs _ IH]; [constructor|].
  simpl. by apply Forall_app.
Qed.

Lemma launch_binary n size draws :
  0 ≤ n → 1 ≤ size → binary (lattice (launch n size draws)).
Proof.
  intros Hn Hs. unfold lattice. apply binary_concat.
  rewrite Forall_fmap. apply Forall_lookup. intros r p Hp. simpl.
  pose proof (lookup_lt_Some _ _ _ Hp) as Hr. rewrite launch_length in Hr.
  rewrite launch_lookup in Hp by done. injection Hp as <-.
  rewrite owned_spawn by by apply local_n_of_nonneg.
  unfold binary. rewrite Forall_fmap. apply Forall_forall. intros i _. simpl.
  destruct (draws _ i); auto.
Qed.

Lemma iter_ring_rule_sum t xs :
  binary xs → sum_cells (Nat.iter t ring_rule xs) = sum_cells xs.
Proof.
  intros Hb. induction t as [|t IH]; [done|]. simpl.
  rewrite ring_rule_sum; [done|].
  destruct t; [done|apply ring_rule_binary].
Qed.

(** ** Ghost slots after the exchange *)


Lemma rd_insert_ne l i j v : i ≠ j → rd (<[i := v]> l) j = rd l j.
Proof. intros. unfold rd. by rewrite list_lookup_insert_ne. Qed.


(** * The claims *)

(** C4: for a segment [old_road] of [local_n + 2] cells, [update_step]
    stores in every owned index [i] of [1 .. local_n] the value
    [(old[i-1] AND NOT old[i]) OR (old[i] AND old[i+1])], and returns the
    number of owned indices [i] with [old[i] AND NOT old[i+1]]. *)
Theorem update_step_spec (old_road new_road : list Z) (local_n : Z) :
  0 ≤ local_n →
  length old_road = Z.to_nat (local_n + 2) →
  length new_road = Z.to_nat (local_n + 2) →
  (∀ i : nat, (1 ≤ i ≤ Z.to_nat local_n)%nat →
     (update_step old_road new_road local_n).1 !! i =
       Some (b2z (truthy (rd old_road (i - 1)) && negb (truthy (rd old_road i))
                  || truthy (rd old_road i) && truthy (rd old_road (i + 1)))))
  ∧ (update_step old_road new_road local_n).2 =
      Z.of_nat (length (filter
        (λ i, truthy (rd old_road i) && negb (truthy (rd old_road (i + 1)))
              = true)
        (seq 1 (Z.to_nat local_n)))).
Proof.
  intros Hn Hold Hnew. split.
  - intros i Hi. rewrite update_step_road, write_loop_lookup.
    case_decide; [done|lia].
  - apply update_step_moved.
Qed.

Lemma update_step_spec_witness :
  (update_step [1; 1; 0; 1; 0] [7; 7; 7; 7; 7] 3).1 !! 2%nat = Some 1
  ∧ (update_step [1; 1; 0; 1; 0] [7; 7; 7; 7; 7] 3).2 = 2.
Proof.
  destruct (update_step_spec [1; 1; 0; 1; 0] [7; 7; 7; 7; 7] 3) as [Hc Hm];
    [lia | reflexivity | reflexivity |].
  split; [apply (Hc 2%nat); simpl; lia | exact Hm].
Defined.

(** C10: [update_step] writes only the owned indices [1 .. local_n] of the
    destination buffer; index 0 and every index above [local_n] (so the
    right ghost slot [local_n + 1]) keep their content, and after the swap
    the ghost slots of the new current buffer are those the old next
    buffer had. *)
Theorem update_step_frame (old_road new_road : list Z) (n : Z) (j : nat) :
  0 ≤ n →
  j = 0%nat ∨ (Z.to_nat n < j)%nat →
  (update_step old_road new_road n).1 !! j = new_road !! j
  ∧ ∀ p, road_current p = old_road → road_next p = new_road →
         local_n p = n →
         road_current (compute p) !! j = road_next p !! j.
Proof.
  intros Hn Hj.
  assert (H : (update_step old_road new_road n).1 !! j = new_road !! j).
  { rewrite update_step_road, write_loop_lookup. case_decide; [lia|done]. }
  split; [done|]. intros p <- <- Hp. rewrite <- Hp in H.
  by rewrite compute_current.
Qed.

Lemma update_step_frame_witness :
  (update_step [1; 1; 0; 1; 0] [7; 8; 8; 8; 9] 3).1 !! 4%nat = Some 9.
Proof.
  destruct (update_step_frame [1; 1; 0; 1; 0] [7; 8; 8; 8; 9] 3 4) as [H _];
    [lia | right; simpl; lia | exact H].
Defined.

(** C8: for every rank of a group of [size] processes, the left neighbour
    is [(rank - 1 + size) mod size] and the right neighbour is
    [(rank + 1) mod size]; both are ranks of the group, each is the inverse
    of the other, and in a group of one both are the process itself. *)
Theorem neighbors_spec (rank size : Z) :
  0 ≤ rank < size →
  left_neighbor rank size = (rank - 1 + size) mod size
  ∧ right_neighbor rank size = (rank + 1) mod size
  ∧ 0 ≤ left_neighbor rank size < size
  ∧ 0 ≤ right_neighbor rank size < size
  ∧ right_neighbor (left_neighbor rank size) size = rank
  ∧ left_neighbor (right_neighbor rank size) size = rank
  ∧ (size = 1 → left_neighbor rank size = rank
                ∧ right_neighbor rank size = rank).
Proof.
  intros H.
  split; [unfold left_neighbor; apply Z.rem_mod_nonneg; lia|].
  split; [unfold right_neighbor; apply Z.rem_mod_nonneg; lia|].
  split; [by apply left_neighbor_range|].
  split; [by apply right_neighbor_range|].
  split; [by apply right_left_neighbor|].
  split; [by apply left_right_neighbor|].
  intros ->. assert (rank = 0) as -> by lia. done.
Qed.

Lemma neighbors_spec_witness :
  left_neighbor 0 4 = 3 ∧ right_neighbor 3 4 = 0.
Proof.
  split.
  - destruct (neighbors_spec 0 4) as [-> _]; [lia | reflexivity].
  - destruct (neighbors_spec 3 4) as (_ & -> & _); [lia | reflexivity].
Defined.

Lemma sum_local_n n size (k : nat) :
  sum_cells ((λ r, local_n_of n size (Z.of_nat r)) <$> seq 0 k)
  = offset_of n size k.
Proof.
  induction k as [|k IH].
  - unfold offset_of. simpl. lia.
  - rewrite seq_S, fmap_app, sum_cells_app, IH, offset_of_succ.
    unfold sum_cells. simpl. lia.
Qed.

Lemma recvcounts_eq n size :
  recvcounts n size
  = (λ r, local_n_of n size (Z.of_nat r)) <$> seq 0 (Z.to_nat size).
Proof.
  apply list_eq. intros i. rewrite list_lookup_fmap.
  destruct (decide (i < Z.to_nat size)%nat) as [Hi|Hi].
  - by rewrite recvcounts_lookup, lookup_seq_lt by done.
  - rewrite lookup_seq_ge by lia. apply lookup_ge_None_2.
    rewrite recvcounts_length. lia.
Qed.

Lemma extra_count n size (k : nat) :
  0 ≤ n → 1 ≤ size →
  length (filter (λ r, local_n_of n size (Z.of_nat r) = Z.quot n size + 1)
                 (seq 0 k))
  = Z.to_nat (Z.min (Z.of_nat k) (Z.rem n size)).
Proof.
  intros Hn Hs.
  pose proof (Z.rem_bound_pos n size ltac:(lia) ltac:(lia)) as Hrem.
  induction k as [|k IH]; [simpl; lia|].
  rewrite seq_S, filter_app, length_app, IH. simpl.
  rewrite filter_cons, filter_nil. unfold local_n_of.
  case_decide as Hk; case_match; simpl; lia.
Qed.

(** C5: rank [r] of [size] gets [n / size] cells plus one exactly when
    [r < n mod size]; the sizes add up to [n], none is below [n / size],
    exactly [n mod size] ranks have the extra cell, and the gather loop
    recomputes these sizes as [recvcounts], with [displs[i]] the sum of
    [recvcounts[0 .. i-1]]. *)
Theorem partition_spec (n size : Z) :
  1 ≤ n → 1 ≤ size →
  let ranks := seq 0 (Z.to_nat size) in
  (∀ rank, local_n_of n size rank
           = n / size + (if decide (rank < n mod size) then 1 else 0))
  ∧ sum_cells ((λ r, local_n_of n size (Z.of_nat r)) <$> ranks) = n
  ∧ (∀ rank, n / size ≤ local_n_of n size rank)
  ∧ length (filter (λ r, local_n_of n size (Z.of_nat r) = n / size + 1) ranks)
    = Z.to_nat (n mod size)
  ∧ recvcounts n size = (λ r, local_n_of n size (Z.of_nat r)) <$> ranks
  ∧ (∀ i, (i < Z.to_nat size)%nat →
       displs n size !! i = Some (sum_cells (take i (recvcounts n size)))).
Proof.
  intros Hn Hs ranks.
  assert (Hq : Z.quot n size = n / size) by (apply Z.quot_div_nonneg; lia).
  assert (Hr : Z.rem n size = n mod size) by (apply Z.rem_mod_nonneg; lia).
  pose proof (Z.mod_pos_bound n size ltac:(lia)) as Hrem.
  split.
  { intros rank. unfold local_n_of. rewrite Hq, Hr.
    case_match; case_decide; lia. }
  split.
  { unfold ranks. rewrite sum_local_n. apply offset_of_total; lia. }
  split.
  { intros rank. rewrite <- Hq. apply local_n_of_lower; lia. }
  split.
  { unfold ranks. rewrite <- Hq, extra_count by lia. rewrite Hr. lia. }
  split; [apply recvcounts_eq|].
  intros i Hi. rewrite displs_lookup by done. f_equal.
  rewrite recvcounts_eq, <- fmap_take, take_seq, Nat.min_l by lia.
  symmetry. apply sum_local_n.
Qed.

Lemma partition_spec_witness :
  recvcounts 7 3 = [3; 2; 2]
  ∧ displs 7 3 !! 2%nat = Some (sum_cells (take 2 (recvcounts 7 3))).
Proof.
  destruct (partition_spec 7 3) as (_ & _ & _ & _ & Hc & Hd); [lia | lia |].
  split; [rewrite Hc; reflexivity | apply Hd; simpl; lia].
Defined.










Lemma single_car_step (pos : nat) :
  (pos < 8)%nat →
  ring_rule (single_car 8 pos) = single_car 8 ((pos + 1) mod 8).
Proof.
  intros H.
  do 8 (destruct pos as [|pos]; [vm_compute; reflexivity|]). lia.
Qed.

Lemma single_car_iter (k : nat) :
  Nat.iter k ring_rule (single_car 8 0) = single_car 8 (k mod 8).
Proof.
  induction k as [|k IH]; [done|].
  rewrite Nat.iter_succ, IH, single_car_step by (apply Nat.mod_upper_bound; lia).
  f_equal. rewrite Nat.Div0.add_mod_idemp_l. f_equal. lia.
Qed.

Lemma single_car_home (pos : nat) :
  (pos < 8)%nat → single_car 8 pos = single_car 8 0 ↔ pos = 0%nat.
Proof.
  intros H. split; [|by intros ->].
  do 8 (destruct pos as [|pos]; [vm_compute; by intros|]). lia.
Qed.

(** C9: from the ring [1,0,0,0,0,0,0,0], on 1, 2 or 4 processes, the road
    after [k] iterations has its single car at position [k mod 8]: the car
    advances one position per iteration, and the road is the initial one
    again exactly when [k] is a multiple of 8, first after 8 iterations. *)
Theorem single_car_orbit (size : Z) (k : nat) :
  size ∈ [1; 2; 4] →
  mpi_run k [1; 0; 0; 0; 0; 0; 0; 0] size = Some (single_car 8 (k mod 8))
  ∧ (mpi_run k [1; 0; 0; 0; 0; 0; 0; 0] size = Some [1; 0; 0; 0; 0; 0; 0; 0]
     ↔ (k mod 8 = 0)%nat).
Proof.
  intros Hsize.
  assert (Hrun : mpi_run k (single_car 8 0) size
                 = Some (single_car 8 (k mod 8))).
  { rewrite mpi_run_ring, single_car_iter; [done| |].
    - unfold binary, single_car. rewrite Forall_fmap.
      apply Forall_forall. intros i _. simpl. case_decide; auto.
    - apply list_elem_of_In in Hsize. simpl in *. lia. }
  change (single_car 8 0) with [1; 0; 0; 0; 0; 0; 0; 0] in Hrun.
  split; [done|]. rewrite Hrun.
  change [1; 0; 0; 0; 0; 0; 0; 0] with (single_car 8 0).
  split.
  - intros H. apply (inj Some) in H. apply single_car_home in H; [done|].
    apply Nat.mod_upper_bound. lia.
  - by intros ->.
Qed.

Lemma single_car_orbit_witness :
  mpi_run 8 [1; 0; 0; 0; 0; 0; 0; 0] 4 = Some [1; 0; 0; 0; 0; 0; 0; 0]
  ∧ mpi_run 3 [1; 0; 0; 0; 0; 0; 0; 0] 2 = Some [0; 0; 0; 1; 0; 0; 0; 0].
Proof.
  split.
  - destruct (single_car_orbit 4 8) as [H _];
      [apply list_elem_of_In; simpl; auto | exact H].
  - destruct (single_car_orbit 2 3) as [H _];
      [apply list_elem_of_In; simpl; auto | exact H].
Defined.

(** C7 as stated, for rank 1 of three processes with three cells: the
    first [MPI_Sendrecv] of [exchange_borders] does not send cell
    [local_n] to the right neighbour while receiving into slot 0 from the
    left one. *)
Lemma exchange_order_differs :
  let first := (exchange_borders 3 0 2).1 in
  ¬ (sendbuf first = 3%nat ∧ dest first = 2
     ∧ recvbuf first = 0%nat ∧ source first = 0).
Proof. simpl. intros (H & _). discriminate. Qed.

(** C7, amended: the exchange is two paired sub-phases in the opposite
    order.  In the first every process sends its leftmost owned cell
    (index 1) to its left neighbour and receives into its right ghost slot
    (index [local_n + 1]) from its right neighbour; in the second every
    process sends its rightmost owned cell (index [local_n]) to its right
    neighbour and receives into its left ghost slot (index 0) from its
    left neighbour.  On a ring of processes that each own at least one
    cell both sub-phases complete. *)
Theorem exchange_two_phases (w : list worker) :
  ring_world w → populated w →
  (∀ p, calls_of p =
     ({| sendbuf := 1; dest := nb_left p; sendtag := 0;
         recvbuf := Z.to_nat (local_n p + 1); source := nb_right p;
         recvtag := 0 |},
      {| sendbuf := Z.to_nat (local_n p); dest := nb_right p; sendtag := 1;
         recvbuf := 0; source := nb_left p; recvtag := 1 |}))
  ∧ ∃ w1 w2,
      sendrecv_round w (λ p, (calls_of p).1) = Some w1
      ∧ sendrecv_round w1 (λ p, (calls_of p).2) = Some w2
      ∧ exchange w = Some w2
      ∧ (∀ r p, w !! r = Some p →
           ∃ pr, process w (nb_right p) = Some pr ∧
             w1 !! r = Some (store p (Z.to_nat (local_n p + 1))
                                   (rd (road_current pr) 1)))
      ∧ (∀ r p1, w1 !! r = Some p1 →
           ∃ pl, process w1 (nb_left p1) = Some pl ∧
             w2 !! r = Some (store p1 0
                               (rd (road_current pl) (Z.to_nat (local_n pl))))).
Proof.
  intros Hw Hpop. split; [done|].
  set (w1 := (λ p, store p (Z.to_nat (local_n p + 1)) (ghost_right w p)) <$> w).
  exists w1, (with_halo w <$> w).
  pose proof (first_round w Hw Hpop) as H1.
  pose proof (second_round w w1 Hw Hpop eq_refl) as H2.
  split_and!; try done.
  - by apply exchange_ring.
  - intros r p Hp.
    pose proof (lookup_lt_Some _ _ _ Hp) as Hlt.
    destruct (Hw r p Hp) as [_ Hr _ _ _].
    destruct (process_in_range w (nb_right p)) as (pr & Hpr & _).
    { rewrite Hr. apply right_neighbor_range. lia. }
    exists pr. split; [done|].
    unfold w1. rewrite list_lookup_fmap, Hp. simpl.
    unfold ghost_right. by rewrite Hpr.
  - intros r p1 Hp1. unfold w1 in Hp1. rewrite list_lookup_fmap in Hp1.
    destruct (w !! r) as [p|] eqn:Hp; [|done]. injection Hp1 as <-.
    pose proof (lookup_lt_Some _ _ _ Hp) as Hlt.
    destruct (Hw r p Hp) as [Hl _ _ _ _].
    destruct (process_in_range w (nb_left p)) as (pl & Hpl & Hql).
    { rewrite Hl. apply left_neighbor_range. lia. }
    destruct (Hw _ pl Hql) as [_ _ Hn _ _].
    assert (Hg : ghost_left w p = rd (road_current pl) (Z.to_nat (local_n pl)))
      by (unfold ghost_left; by rewrite Hpl).
    exists (store pl (Z.to_nat (local_n pl + 1)) (ghost_right w pl)).
    split.
    + unfold process in *. simpl. case_decide; [|done].
      unfold w1. by rewrite list_lookup_fmap, Hpl.
    + rewrite list_lookup_fmap, Hp. cbn [fmap option_fmap option_map].
      unfold with_halo. rewrite Hg.
      cbn [road_current local_n store]. by rewrite rd_insert_ne by lia.
Qed.

Lemma exchange_two_phases_witness :
  ∃ w1 w2,
    sendrecv_round (launch 5 2 (λ _ _, true)) (λ p, (calls_of p).1) = Some w1
    ∧ sendrecv_round w1 (λ p, (calls_of p).2) = Some w2
    ∧ exchange (launch 5 2 (λ _ _, true)) = Some w2.
Proof.
  destruct (exchange_two_phases (launch 5 2 (λ _ _, true)))
    as (_ & w1 & w2 & H1 & H2 & H3 & _).
  - apply launch_ring_world; lia.
  - apply launch_populated; lia.
  - exists w1, w2. auto.
Defined.

Lemma loop_events_usage iterations :
  existsb is_usage (loop_events iterations) = false.
Proof.
  unfold loop_events. induction (Z.to_nat iterations) as [|k IH]; [done|].
  exact IH.
Qed.





(** * Further properties of the code *)

(** ** Counting and initialising one segment *)

Lemma count_cars_local_reads road road' n :
  (∀ i, (1 ≤ i ≤ Z.to_nat n)%nat → rd road' i = rd road i) →
  count_cars_local road' n = count_cars_local road n.
Proof.
  intros H. unfold count_cars_local. rewrite !foldl_add_sum. f_equal. f_equal.
  apply list_fmap_ext. intros j i Hi%lookup_seq. apply H. lia.
Qed.

Lemma sum_cells_reads road (n : nat) :
  (n < length road)%nat →
  sum_cells (rd road <$> seq 1 n) = sum_cells (take n (drop 1 road)).
Proof.
  intros Hlen. f_equal. apply list_eq. intros j.
  rewrite list_lookup_fmap.
  destruct (decide (j < n)%nat) as [Hj|Hj].
  - rewrite lookup_take_lt, lookup_drop, lookup_seq_lt by done. simpl.
    unfold rd.
    destruct (lookup_lt_is_Some_2 road (S j)) as [x Hx]; [lia|].
    by rewrite Hx.
  - by rewrite lookup_take_ge, lookup_seq_ge by lia.
Qed.

(** X1: [count_cars_local] adds up the owned cells [1 .. local_n] and nothing
    else: the value stored in either ghost slot does not change it. *)
Theorem count_cars_local_owned_only (road : list Z) (n v : Z) :
  0 ≤ n → (Z.to_nat n < length road)%nat →
  count_cars_local road n = sum_cells (take (Z.to_nat n) (drop 1 road))
  ∧ count_cars_local (<[0%nat := v]> road) n = count_cars_local road n
  ∧ count_cars_local (<[Z.to_nat (n + 1) := v]> road) n
    = count_cars_local road n.
Proof.
  intros Hn Hlen. split; [|split].
  - unfold count_cars_local. rewrite foldl_add_sum, sum_cells_reads by done.
    lia.
  - apply count_cars_local_reads. intros i Hi. apply rd_insert_ne. lia.
  - apply count_cars_local_reads. intros i Hi. apply rd_insert_ne. lia.
Qed.

Lemma count_cars_local_owned_only_witness :
  count_cars_local [9; 1; 0; 1; 9] 3 = 2
  ∧ count_cars_local (<[0%nat := 5]> [9; 1; 0; 1; 9]) 3
    = count_cars_local [9; 1; 0; 1; 9] 3.
Proof.
  destruct (count_cars_local_owned_only [9; 1; 0; 1; 9] 3 5) as (H1 & H2 & _);
    [lia | simpl; lia |].
  split; [rewrite H1; reflexivity | exact H2].
Defined.

Lemma sum_cells_b2z (draws : nat → bool) l :
  sum_cells ((λ i, if draws i then 1 else 0) <$> l)
  = Z.of_nat (length (filter (λ i, draws i = true) l)).
Proof.
  unfold sum_cells. induction l as [|i l IH]; [done|].
  rewrite fmap_cons, filter_cons. cbn [foldr]. rewrite IH.
  destruct (draws i); case_decide; try done; simpl; lia.
Qed.

(** X2: [initialize_road_local] on a buffer of [local_n + 2] cells leaves the
    two ghost slots as they were and sets owned cell [i] to 1 when the
    draw for [i] succeeds and to 0 otherwise; [count_cars_local] then
    returns the number of successful draws. *)
Theorem initialize_road_local_spec (road : list Z) (n : Z)
    (draws : nat → bool) :
  0 ≤ n → length road = Z.to_nat (n + 2) →
  initialize_road_local road n draws
  = rd road 0 :: ((λ i, if draws i then 1 else 0) <$> seq 1 (Z.to_nat n))
      ++ [rd road (Z.to_nat (n + 1))]
  ∧ count_cars_local (initialize_road_local road n draws) n
    = Z.of_nat (length (filter (λ i, draws i = true) (seq 1 (Z.to_nat n)))).
Proof.
  intros Hn Hlen.
  assert (Heq : initialize_road_local road n draws
    = rd road 0 :: ((λ i, if draws i then 1 else 0) <$> seq 1 (Z.to_nat n))
        ++ [rd road (Z.to_nat (n + 1))]).
  { rewrite initialize_road_local_eq. apply list_eq. intros j.
    rewrite write_loop_lookup. case_decide as Hj.
    - destruct j as [|j]; [lia|]. simpl.
      rewrite lookup_app_l by (rewrite length_fmap, length_seq; lia).
      rewrite list_lookup_fmap, lookup_seq_lt by lia. done.
    - destruct j as [|j].
      + simpl. unfold rd.
        destruct (lookup_lt_is_Some_2 road 0) as [x Hx]; [lia|]. by rewrite Hx.
      + simpl. destruct (decide (j < Z.to_nat n)%nat); [lia|].
        rewrite lookup_app_r by (rewrite length_fmap, length_seq; lia).
        rewrite length_fmap, length_seq.
        destruct (decide (j = Z.to_nat n)) as [->|Hne].
        * rewrite Nat.sub_diag. simpl. unfold rd.
          replace (Z.to_nat (n + 1)) with (S (Z.to_nat n)) by lia.
          destruct (lookup_lt_is_Some_2 road (S (Z.to_nat n))) as [x Hx];
            [lia|]. by rewrite Hx.
        * rewrite lookup_ge_None_2 by lia.
          destruct (j - Z.to_nat n)%nat as [|k] eqn:Hk; [lia|]. done. }
  split; [done|].
  unfold count_cars_local. rewrite foldl_add_sum, <- sum_cells_b2z.
  rewrite Z.add_0_l. f_equal.
  apply list_fmap_ext. intros j i Hi%lookup_seq.
  rewrite initialize_road_local_eq. unfold rd.
  rewrite write_loop_lookup. case_decide; [done|lia].
Qed.

Lemma initialize_road_local_spec_witness :
  initialize_road_local (calloc 5) 3 Nat.even = [0; 0; 1; 0; 0]
  ∧ count_cars_local (initialize_road_local (calloc 5) 3 Nat.even) 3 = 1.
Proof.
  destruct (initialize_road_local_spec (calloc 5) 3 Nat.even) as [H1 H2];
    [lia | reflexivity |].
  split; [rewrite H1; reflexivity | rewrite H2; reflexivity].
Defined.

(** ** The update kernel on one segment *)

Lemma new_cell_binary old_road i :
  new_cell old_road i = 0 ∨ new_cell old_road i = 1.
Proof. unfold new_cell. destruct (_ || _); auto. Qed.

Lemma car_leaves_vacates old_road i :
  car_leaves old_road i
  = truthy (rd old_road i) && negb (truthy (new_cell old_road i)).
Proof.
  unfold car_leaves, new_cell.
  destruct (truthy (rd old_road (i - 1))), (truthy (rd old_road i)),
    (truthy (rd old_road (i + 1))); done.
Qed.

Lemma filter_length_le {A} (P : A → Prop) `{∀ x, Decision (P x)} (l : list A) :
  (length (filter P l) ≤ length l)%nat.
Proof.
  induction l as [|x l IH]; [done|].
  rewrite filter_cons. case_decide; simpl; lia.
Qed.

Lemma filter_ext_in {A} (P Q : A → Prop) `{∀ x, Decision (P x)}
    `{∀ x, Decision (Q x)} (l : list A) :
  (∀ x, x ∈ l → P x ↔ Q x) → filter P l = filter Q l.
Proof.
  induction l as [|x l IH]; intros Hext; [done|].
  rewrite !filter_cons.
  rewrite IH by (intros y Hy; apply Hext; by right).
  destruct (Hext x ltac:(by left)).
  repeat case_decide; tauto.
Qed.

(** X3: Whatever the cells of [old_road] hold, [update_step] stores only 0 or
    1 in the owned cells; the number it returns is the number of owned
    cells that were occupied and are empty afterwards, and lies between 0
    and [local_n]. *)
Theorem update_step_vacated (old_road new_road : list Z) (n : Z) :
  0 ≤ n → (Z.to_nat n < length new_road)%nat →
  let new_road' := (update_step old_road new_road n).1 in
  let moved := (update_step old_road new_road n).2 in
  (∀ i, (1 ≤ i ≤ Z.to_nat n)%nat → rd new_road' i = 0 ∨ rd new_road' i = 1)
  ∧ moved = Z.of_nat (length (filter
              (λ i, truthy (rd old_road i) && negb (truthy (rd new_road' i))
                    = true)
              (seq 1 (Z.to_nat n))))
  ∧ 0 ≤ moved ≤ n.
Proof.
  intros Hn Hlen new_road' moved.
  assert (Hcell : ∀ i, (1 ≤ i ≤ Z.to_nat n)%nat →
            rd new_road' i = new_cell old_road i).
  { intros i Hi. unfold new_road', rd.
    rewrite update_step_road, write_loop_lookup. case_decide; [done|lia]. }
  split; [|split].
  - intros i Hi. rewrite Hcell by done. apply new_cell_binary.
  - unfold moved. rewrite update_step_moved. f_equal. f_equal.
    apply filter_ext_in.
    intros i Hi%elem_of_seq. rewrite Hcell by lia.
    by rewrite car_leaves_vacates.
  - unfold moved. rewrite update_step_moved.
    pose proof (filter_length_le (λ i, car_leaves old_road i = true)
                  (seq 1 (Z.to_nat n))) as Hle.
    rewrite length_seq in Hle. lia.
Qed.

Lemma update_step_vacated_witness :
  (update_step [1; 1; 0; 5; 0] [7; 7; 7; 7; 7] 3).2 = 2
  ∧ 0 ≤ (update_step [1; 1; 0; 5; 0] [7; 7; 7; 7; 7] 3).2 ≤ 3.
Proof.
  destruct (update_step_vacated [1; 1; 0; 5; 0] [7; 7; 7; 7; 7] 3)
    as (_ & H2 & H3); [lia | simpl; lia |].
  split; [rewrite H2; reflexivity | exact H3].
Defined.

Lemma update_body_ext old_road old_road' l : ∀ st,
  (∀ i, i ∈ l → new_cell old_road' i = new_cell old_road i
               ∧ car_leaves old_road' i = car_leaves old_road i) →
  foldl (update_body old_road') st l = foldl (update_body old_road) st l.
Proof.
  induction l as [|i l IH]; intros st H; [done|].
  cbn [foldl]. rewrite IH by (intros j Hj; apply H; by right).
  f_equal. destruct st as [new_road c]. unfold update_body.
  destruct (H i) as [-> ->]; [by left|done].
Qed.

Lemma rd_take road k i : (i < k)%nat → rd (take k road) i = rd road i.
Proof. intros. unfold rd. by rewrite lookup_take_lt. Qed.

(** X4: [update_step] reads no cell of [old_road] beyond index [local_n + 1],
    and what it stores in the owned cells and returns does not depend on
    what the destination buffer held. *)
Theorem update_step_reads (old_road new_road new_road' : list Z) (n : Z) :
  0 ≤ n →
  length new_road = length new_road' →
  update_step (take (Z.to_nat (n + 2)) old_road) new_road n
  = update_step old_road new_road n
  ∧ (update_step old_road new_road n).2 = (update_step old_road new_road' n).2
  ∧ ∀ i, (1 ≤ i ≤ Z.to_nat n)%nat →
      (update_step old_road new_road n).1 !! i
      = (update_step old_road new_road' n).1 !! i.
Proof.
  intros Hn Hlen. split; [|split].
  - unfold update_step. apply update_body_ext.
    intros i Hi%elem_of_seq. unfold new_cell, car_leaves.
    rewrite !rd_take by lia. done.
  - by rewrite !update_step_moved.
  - intros i Hi. rewrite !update_step_road, !write_loop_lookup, Hlen.
    case_decide; [done|]. by rewrite !lookup_ge_None_2 by lia.
Qed.

Lemma update_step_reads_witness :
  update_step (take (Z.to_nat (2 + 2)) [1; 1; 0; 1; 1; 1]) [7; 7; 7; 7] 2
  = update_step [1; 1; 0; 1; 1; 1] [7; 7; 7; 7] 2.
Proof.
  destruct (update_step_reads [1; 1; 0; 1; 1; 1] [7; 7; 7; 7] [7; 7; 7; 7] 2)
    as [H _]; [lia | reflexivity | exact H].
Defined.

Lemma segment_shape (road : list Z) (k : nat) :
  length road = S (S k) →
  road = rd road 0 :: take k (drop 1 road) ++ [rd road (S k)].
Proof.
  intros Hlen.
  destruct road as [|a rest]; [done|]. simpl in *.
  rewrite drop_0. f_equal.
  rewrite <- (take_drop k rest) at 1. f_equal.
  assert (Hd : length (drop k rest) = 1%nat) by (rewrite length_drop; lia).
  destruct (drop k rest) as [|b [|c tl]] eqn:E; simplify_eq/=.
  f_equal. unfold rd. simpl.
  by rewrite <- (Nat.add_0_r k), <- lookup_drop, E.
Qed.

Lemma count_cars_local_sum road n :
  (Z.to_nat n < length road)%nat →
  count_cars_local road n = sum_cells (take (Z.to_nat n) (drop 1 road)).
Proof.
  intros Hlen. unfold count_cars_local.
  rewrite foldl_add_sum, sum_cells_reads by done. lia.
Qed.

(** X5: The number of cars a segment holds changes in one [update_step] by
    the car that enters from the left ghost cell minus the car that
    leaves for the right ghost cell. *)
Theorem update_step_flux (old_road new_road : list Z) (n : Z) :
  1 ≤ n →
  length old_road = Z.to_nat (n + 2) →
  length new_road = Z.to_nat (n + 2) →
  binary (take (Z.to_nat n) (drop 1 old_road)) →
  count_cars_local (update_step old_road new_road n).1 n
  = count_cars_local old_road n
    + moves (rd old_road 0) (rd old_road 1)
    - moves (rd old_road (Z.to_nat n)) (rd old_road (Z.to_nat (n + 1))).
Proof.
  intros Hn Hold Hnew Hbin.
  set (xs := take (Z.to_nat n) (drop 1 old_road)) in *.
  assert (Hxs : length xs = Z.to_nat n)
    by (unfold xs; rewrite length_take, length_drop; lia).
  rewrite !count_cars_local_sum
    by (rewrite ?update_step_road, ?length_write_loop; lia).
  fold xs. rewrite update_step_road, write_loop_window by lia.
  replace (Z.to_nat (n + 1)) with (S (Z.to_nat n)) by lia.
  rewrite (segment_shape old_road (Z.to_nat n)) at 1 by lia. fold xs.
  rewrite <- Hxs at 2.
  pose proof (new_cell_window xs [] (rd old_road 0)
                (rd old_road (S (Z.to_nat n))) []) as Hw.
  cbn [app length] in Hw. rewrite Hw. clear Hw.
  pose proof (rule_window_sum xs (rd old_road 0)
                (rd old_road (S (Z.to_nat n))) Hbin) as Hsum.
  assert (Hlast : default (rd old_road 0) (last xs)
                  = rd old_road (Z.to_nat n)).
  { rewrite last_lookup, Hxs. unfold xs, rd at 2.
    rewrite lookup_take_lt, lookup_drop by lia.
    replace (1 + Init.Nat.pred (Z.to_nat n))%nat with (Z.to_nat n) by lia.
    destruct (lookup_lt_is_Some_2 old_road (Z.to_nat n)) as [x Hx]; [lia|].
    by rewrite Hx. }
  assert (Hhd : hd (rd old_road (S (Z.to_nat n))) xs = rd old_road 1).
  { destruct xs as [|x tl] eqn:E; [simpl in Hxs; lia|]. simpl.
    assert (xs !! 0%nat = Some x) as Hx by by rewrite E.
    unfold xs in Hx. rewrite lookup_take_lt, lookup_drop in Hx by lia.
    unfold rd. simpl in Hx. by rewrite Hx. }
  rewrite Hlast, Hhd in Hsum. lia.
Qed.

Lemma update_step_flux_witness :
  count_cars_local (update_step [1; 0; 1; 0] [0; 0; 0; 0] 2).1 2
  = count_cars_local [1; 0; 1; 0] 2 + moves 1 0 - moves 1 0.
Proof.
  apply (update_step_flux [1; 0; 1; 0] [0; 0; 0; 0] 2);
    [lia | reflexivity | reflexivity |].
  unfold binary.
  repeat (constructor; [first [left; reflexivity | right; reflexivity]|]).
  constructor.
Defined.

(** ** The exchange on the whole group *)

Lemma with_halo_ring_world w : ring_world w → ring_world (with_halo w <$> w).
Proof.
  intros Hw r p' Hp'. rewrite length_fmap.
  rewrite list_lookup_fmap in Hp'.
  destruct (w !! r) as [p|] eqn:Hp; [|done]. injection Hp' as <-.
  destruct (Hw r p Hp) as [Hl Hr Hn Hc Hx].
  split; simpl; try done. by rewrite !length_insert.
Qed.

Lemma with_halo_populated w : populated w → populated (with_halo w <$> w).
Proof.
  intros Hpop. unfold populated in *. rewrite Forall_fmap.
  eapply Forall_impl; [exact Hpop|]. by intros p Hp.
Qed.

(** X6: On a ring of processes that each own at least one cell
    [exchange_borders] completes and changes nothing but the two ghost
    slots of [road_current]: the owned cells, [road_next], [local_n] and
    the neighbours of every process are kept. *)
Theorem exchange_frame (w : list worker) :
  ring_world w → populated w →
  ∃ w', exchange w = Some w'
  ∧ length w' = length w
  ∧ ∀ r p, w !! r = Some p →
      ∃ p', w' !! r = Some p'
        ∧ local_n p' = local_n p
        ∧ nb_left p' = nb_left p ∧ nb_right p' = nb_right p
        ∧ road_next p' = road_next p
        ∧ length (road_current p') = length (road_current p)
        ∧ owned p' = owned p
        ∧ ∀ j, (1 ≤ j ≤ Z.to_nat (local_n p))%nat →
            road_current p' !! j = road_current p !! j.
Proof.
  intros Hw Hpop. exists (with_halo w <$> w).
  split; [by apply exchange_ring|].
  split; [by rewrite length_fmap|].
  intros r p Hp. exists (with_halo w p).
  destruct (Hw r p Hp) as [_ _ Hn Hc _].
  rewrite list_lookup_fmap, Hp.
  assert (Hcells : ∀ j, (1 ≤ j ≤ Z.to_nat (local_n p))%nat →
            road_current (with_halo w p) !! j = road_current p !! j).
  { intros j Hj. simpl. by rewrite !list_lookup_insert_ne by lia. }
  split_and!; try done.
  - simpl. by rewrite !length_insert.
  - unfold owned. change (local_n (with_halo w p)) with (local_n p).
    apply list_eq. intros j.
    destruct (decide (j < Z.to_nat (local_n p))%nat).
    + rewrite !lookup_take_lt, !lookup_drop by done. apply Hcells. lia.
    + by rewrite !lookup_take_ge by lia.
Qed.

Lemma exchange_frame_witness :
  ∃ w', exchange (launch 5 2 (λ _ _, true)) = Some w'
        ∧ length w' = length (launch 5 2 (λ _ _, true)).
Proof.
  destruct (exchange_frame (launch 5 2 (λ _ _, true))) as (w' & H1 & H2 & _).
  - apply launch_ring_world; lia.
  - apply launch_populated; lia.
  - exists w'. split; [exact H1 | exact H2].
Defined.

Lemma ghost_left_with_halo w r p :
  ring_world w → populated w → w !! r = Some p →
  ghost_left (with_halo w <$> w) (with_halo w p) = ghost_left w p.
Proof.
  intros Hw Hpop Hp. unfold ghost_left.
  change (nb_left (with_halo w p)) with (nb_left p).
  destruct (Hw r p Hp) as [Hl _ _ _ _].
  pose proof (lookup_lt_Some _ _ _ Hp) as Hlt.
  destruct (process_in_range w (nb_left p)) as (q & Hpq & Hq).
  { rewrite Hl. apply left_neighbor_range. lia. }
  rewrite Hpq. unfold process in *. rewrite list_lookup_fmap.
  case_decide; [|done]. rewrite Hpq. simpl.
  pose proof (proj1 (Forall_lookup _ _) Hpop _ q Hq) as Hn. simpl in Hn.
  by rewrite !rd_insert_ne by lia.
Qed.

Lemma ghost_right_with_halo w r p :
  ring_world w → populated w → w !! r = Some p →
  ghost_right (with_halo w <$> w) (with_halo w p) = ghost_right w p.
Proof.
  intros Hw Hpop Hp. unfold ghost_right.
  change (nb_right (with_halo w p)) with (nb_right p).
  destruct (Hw r p Hp) as [_ Hr _ _ _].
  pose proof (lookup_lt_Some _ _ _ Hp) as Hlt.
  destruct (process_in_range w (nb_right p)) as (q & Hpq & Hq).
  { rewrite Hr. apply right_neighbor_range. lia. }
  rewrite Hpq. unfold process in *. rewrite list_lookup_fmap.
  case_decide; [|done]. rewrite Hpq. simpl.
  pose proof (proj1 (Forall_lookup _ _) Hpop _ q Hq) as Hn. simpl in Hn.
  by rewrite !rd_insert_ne by lia.
Qed.

(** X7: When every process owns a cell, a second [exchange_borders] right
    after the first changes nothing: the exchange is idempotent. *)
Theorem exchange_idempotent (w w' : list worker) :
  ring_world w → populated w → exchange w = Some w' → exchange w' = Some w'.
Proof.
  intros Hw Hpop. rewrite exchange_ring by done. intros [= <-].
  rewrite exchange_ring
    by (by apply with_halo_ring_world || by apply with_halo_populated).
  f_equal. rewrite <- list_fmap_compose.
  apply list_fmap_ext. intros r p Hp. simpl.
  destruct (Hw r p Hp) as [_ _ Hn Hc _].
  unfold with_halo at 1.
  rewrite (ghost_left_with_halo w r p), (ghost_right_with_halo w r p) by done.
  change (local_n (with_halo w p)) with (local_n p).
  unfold with_halo, store. simpl. f_equal.
  set (a := Z.to_nat (local_n p + 1)).
  set (l := <[0%nat := ghost_left w p]> (<[a := ghost_right w p]> (road_current p))).
  assert (Ha : <[a := ghost_right w p]> l = l).
  { apply list_insert_id. unfold l.
    rewrite list_lookup_insert_ne by (unfold a; lia).
    apply list_lookup_insert_eq. unfold a. lia. }
  rewrite Ha. apply list_insert_id. unfold l.
  apply list_lookup_insert_eq. rewrite length_insert. lia.
Qed.

Lemma exchange_idempotent_witness :
  exchange (with_halo (launch 5 2 (λ _ i, Nat.even i))
              <$> launch 5 2 (λ _ i, Nat.even i))
  = Some (with_halo (launch 5 2 (λ _ i, Nat.even i))
            <$> launch 5 2 (λ _ i, Nat.even i)).
Proof.
  apply (exchange_idempotent (launch 5 2 (λ _ i, Nat.even i))).
  - apply launch_ring_world; lia.
  - apply launch_populated; lia.
  - reflexivity.
Defined.

(** ** Fixed points and whole runs *)

Lemma rule_window_replicate v k :
  v = 0 ∨ v = 1 → rule_window v (replicate k v) v = replicate k v.
Proof.
  intros Hv. induction k as [|k IH]; [done|].
  simpl. rewrite IH. f_equal.
  destruct k; simpl; destruct Hv as [-> | ->]; done.
Qed.

Lemma ring_rule_replicate v k :
  v = 0 ∨ v = 1 → ring_rule (replicate k v) = replicate k v.
Proof.
  intros Hv. unfold ring_rule. destruct k as [|k]; [done|].
  replace (default 0 (last (replicate (S k) v))) with v.
  - replace (hd 0 (replicate (S k) v)) with v by done.
    by apply rule_window_replicate.
  - rewrite last_lookup, length_replicate.
    by rewrite lookup_replicate_2 by lia.
Qed.

(** X8: The empty road and the fully jammed road are fixed points: on any
    number of processes that each own a cell, and in the sequential
    program, every iteration leaves them as they are. *)
Theorem uniform_road_fixed (v size : Z) (k t : nat) :
  v = 0 ∨ v = 1 → 1 ≤ size ≤ Z.of_nat k →
  mpi_run t (replicate k v) size = Some (replicate k v)
  ∧ Serial.run t (replicate k v) = replicate k v.
Proof.
  intros Hv Hs.
  assert (Hit : Nat.iter t ring_rule (replicate k v) = replicate k v).
  { induction t as [|t IH]; [done|]. simpl. rewrite IH.
    by apply ring_rule_replicate. }
  split.
  - rewrite mpi_run_ring, Hit; [done| |by rewrite length_replicate].
    unfold binary. apply Forall_forall. intros x Hx.
    by apply elem_of_replicate in Hx as [-> _].
  - by rewrite serial_run_ring.
Qed.

Lemma uniform_road_fixed_witness :
  mpi_run 3 (replicate 8 1) 4 = Some (replicate 8 1)
  ∧ Serial.run 3 (replicate 8 1) = replicate 8 1.
Proof. apply (uniform_road_fixed 1 4 8 3); [by right | simpl; lia]. Defined.

Lemma loop_events_simulation iterations :
  length (filter (λ e, is_simulation e = true) (loop_events iterations))
  = (2 * Z.to_nat iterations)%nat.
Proof.
  unfold loop_events. induction (Z.to_nat iterations) as [|k IH]; [done|].
  change (mjoin (replicate (S k) [Exchange_borders; Update_step]))
    with ([Exchange_borders; Update_step]
            ++ mjoin (replicate k [Exchange_borders; Update_step])).
  rewrite filter_app, length_app, IH.
  change (length (filter (λ e, is_simulation e = true)
                         [Exchange_borders; Update_step])) with 2%nat.
  lia.
Qed.

(** X9: A run of [main] with at least one cell per process, a non-negative
    iteration count and its buffers allocated exits with status 0 after
    exactly [iterations] exchange and update steps; the roads it ends with
    form the road the sequential program computes from the initial one,
    and hold as many cars as the total printed at start. *)
Theorem main_run (size n iterations : Z) (draws : Z → nat → bool)
    (heap : Z → bool) :
  1 ≤ size ≤ n → 0 ≤ iterations →
  forallb (λ p, heap (local_n p + 2)) (launch n size draws) = true →
  let res := main size [n; iterations] draws heap in
  status res = Some 0
  ∧ lattice (roads res)
    = Serial.run (Z.to_nat iterations) (lattice (launch n size draws))
  ∧ Printf "Total cars: %d\n" [total_cars (roads res)] ∈ trace res
  ∧ length (filter (λ e, is_simulation e = true) (trace res))
    = (2 * Z.to_nat iterations)%nat
  ∧ existsb is_usage (trace res) = false.
Proof.
  intros Hs Hit Hheap. unfold main.
  change (default 1000 ([n; iterations] !! 0%nat)) with n.
  change (default 1000 ([n; iterations] !! 1%nat)) with iterations.
  rewrite Hheap. cbn [negb].
  pose proof (launch_ring_world n size draws ltac:(lia) ltac:(lia)) as Hw0.
  destruct (main_loop_ring (Z.to_nat iterations) _ Hw0
              (launch_populated n size draws Hs))
    as (w & -> & Hw & _ & Hlat).
  cbn [status roads trace].
  assert (Htot : total_cars w = total_cars (launch n size draws)).
  { rewrite !total_cars_lattice, Hlat by done.
    apply iter_ring_rule_sum, launch_binary; lia. }
  split_and!.
  - done.
  - by rewrite serial_run_ring.
  - rewrite Htot. apply list_elem_of_In. simpl. auto 10.
  - rewrite !filter_app, !length_app, loop_events_simulation.
    set (startup := filter _ (MPI_Init :: _)).
    set (finish := filter _ (MPI_Barrier :: _)).
    change (length startup) with 0%nat. change (length finish) with 0%nat.
    lia.
  - rewrite !existsb_app, loop_events_usage. reflexivity.
Qed.

Lemma main_run_witness :
  status (main 2 [6; 3] (λ _ i, Nat.even i) (λ _, true)) = Some 0
  ∧ lattice (roads (main 2 [6; 3] (λ _ i, Nat.even i) (λ _, true)))
    = Serial.run 3 (lattice (launch 6 2 (λ _ i, Nat.even i))).
Proof.
  destruct (main_run 2 6 3 (λ _ i, Nat.even i) (λ _, true))
    as (H1 & H2 & _); [lia | lia | reflexivity |].
  split; [exact H1 | exact H2].
Defined.

(** ** The sequential programs *)

Lemma serial_update_step_road old_road new_road n :
  (Serial.update_step old_road new_road n).1
  = write_loop (Serial.new_cell old_road n) new_road 0 (Z.to_nat n).
Proof. unfold Serial.update_step. by rewrite serial_update_fold. Qed.

Lemma serial_update_step_moved old_road new_road n :
  (Serial.update_step old_road new_road n).2
  = Z.of_nat (length (filter (λ i, Serial.car_leaves old_road n i = true)
                             (seq 0 (Z.to_nat n)))).
Proof. unfold Serial.update_step. by rewrite serial_update_fold. Qed.

Lemma ring_left_index (i n : nat) :
  (i < n)%nat →
  Z.to_nat (Z.rem (Z.of_nat i - 1 + Z.of_nat n) (Z.of_nat n))
  = ((i + n - 1) mod n)%nat.
Proof.
  intros Hi.
  change (Z.rem _ _) with (left_neighbor (Z.of_nat i) (Z.of_nat n)).
  rewrite left_neighbor_cases by lia. case_decide.
  - assert (i = 0)%nat as -> by lia. rewrite Nat.mod_small by lia. lia.
  - replace (i + n - 1)%nat with (i - 1 + 1 * n)%nat by lia.
    rewrite Nat.Div0.mod_add, Nat.mod_small by lia. lia.
Qed.

Lemma ring_right_index (i n : nat) :
  (i < n)%nat →
  Z.to_nat (Z.rem (Z.of_nat i + 1) (Z.of_nat n)) = ((i + 1) mod n)%nat.
Proof.
  intros Hi.
  change (Z.rem _ _) with (right_neighbor (Z.of_nat i) (Z.of_nat n)).
  rewrite right_neighbor_cases by lia. case_decide.
  - replace (i + 1)%nat with n by lia. rewrite Nat.Div0.mod_same. lia.
  - rewrite Nat.mod_small by lia. lia.
Qed.

(** X10: The sequential [update_step] on a road of [n] cells stores in every
    cell [i] the rule applied to cells [i - 1], [i] and [i + 1] taken
    modulo [n], always 0 or 1, and returns the number of occupied cells
    whose right neighbour on the ring is free. *)
Theorem serial_kernel_spec (old_road new_road : list Z) (n : nat) :
  length old_road = n → length new_road = n →
  let res := Serial.update_step old_road new_road (Z.of_nat n) in
  length res.1 = n
  ∧ (∀ i, (i < n)%nat →
       res.1 !! i = Some (rule (rd old_road ((i + n - 1) mod n))
                               (rd old_road i)
                               (rd old_road ((i + 1) mod n))))
  ∧ res.2 = Z.of_nat (length (filter
              (λ i, truthy (rd old_road i)
                    && negb (truthy (rd old_road ((i + 1) mod n))) = true)
              (seq 0 n))).
Proof.
  intros Hold Hnew res. unfold res. split; [|split].
  - by rewrite serial_update_step_road, length_write_loop.
  - intros i Hi. rewrite serial_update_step_road, write_loop_lookup.
    rewrite Nat2Z.id. case_decide; [|lia]. f_equal.
    unfold Serial.new_cell, rule.
    by rewrite ring_left_index, ring_right_index by done.
  - rewrite serial_update_step_moved, Nat2Z.id. f_equal. f_equal.
    apply filter_ext_in. intros i Hi%elem_of_seq.
    unfold Serial.car_leaves. by rewrite ring_right_index by lia.
Qed.

Lemma serial_kernel_spec_witness :
  (Serial.update_step [1; 0; 0; 1] [7; 7; 7; 7] 4).1 !! 0%nat = Some 0
  ∧ (Serial.update_step [1; 0; 0; 1] [7; 7; 7; 7] 4).2 = 1.
Proof.
  destruct (serial_kernel_spec [1; 0; 0; 1] [7; 7; 7; 7] 4)
    as (_ & H1 & H2); [reflexivity | reflexivity |].
  split; [exact (H1 0%nat ltac:(lia)) | exact H2].
Defined.

Lemma serial_count_cars_sum road :
  Serial.count_cars road (Z.of_nat (length road)) = sum_cells road.
Proof.
  unfold Serial.count_cars. rewrite foldl_add_sum, Nat2Z.id, Z.add_0_l.
  f_equal. apply list_eq. intros j. rewrite list_lookup_fmap.
  destruct (decide (j < length road)%nat).
  - rewrite lookup_seq_lt by done. simpl. unfold rd.
    destruct (lookup_lt_is_Some_2 road j) as [x Hx]; [done|]. by rewrite Hx.
  - rewrite lookup_seq_ge by lia. simpl. symmetry.
    apply lookup_ge_None_2. lia.
Qed.

Lemma iter_ring_rule_length t xs :
  length (Nat.iter t ring_rule xs) = length xs.
Proof.
  induction t as [|t IH]; [done|]. simpl.
  unfold ring_rule. by rewrite rule_window_length.
Qed.

(** X11: The sequential program keeps the number of cars: on a road of 0/1
    cells [count_cars] returns after any number of iterations what it
    returned at the start, and the road keeps its length. *)
Theorem serial_run_conserves (road : list Z) (t : nat) :
  binary road →
  let n := Z.of_nat (length road) in
  length (Serial.run t road) = length road
  ∧ Serial.count_cars (Serial.run t road) n = Serial.count_cars road n.
Proof.
  intros Hb n. rewrite serial_run_ring.
  pose proof (iter_ring_rule_length t road) as Hlen.
  split; [done|]. unfold n. rewrite <- Hlen at 1.
  rewrite !serial_count_cars_sum. by apply iter_ring_rule_sum.
Qed.

Lemma serial_run_conserves_witness :
  Serial.count_cars (Serial.run 5 [1; 1; 0; 1; 0; 0; 1]) 7
  = Serial.count_cars [1; 1; 0; 1; 0; 0; 1] 7.
Proof.
  apply (serial_run_conserves [1; 1; 0; 1; 0; 0; 1] 5).
  unfold binary.
  repeat (constructor; [first [left; reflexivity | right; reflexivity]|]).
  constructor.
Defined.

Lemma peeled_cell_first old_road (n : nat) :
  (2 ≤ n)%nat →
  Peeled.edge_cell old_road (Z.of_nat n - 1) 0 1
  = Serial.new_cell old_road (Z.of_nat n) 0.
Proof.
  intros Hn. unfold Peeled.edge_cell, Serial.new_cell, Peeled.rdz.
  change (Z.rem (Z.of_nat 0 - 1 + Z.of_nat n) (Z.of_nat n))
    with (left_neighbor (Z.of_nat 0) (Z.of_nat n)).
  change (Z.rem (Z.of_nat 0 + 1) (Z.of_nat n))
    with (right_neighbor (Z.of_nat 0) (Z.of_nat n)).
  rewrite left_neighbor_cases, right_neighbor_cases by lia.
  rewrite !decide_True by lia. rewrite decide_False by lia.
  done.
Qed.

Lemma peeled_cell_last old_road (n : nat) :
  (2 ≤ n)%nat →
  Peeled.edge_cell old_road (Z.of_nat n - 2) (Z.of_nat n - 1) 0
  = Serial.new_cell old_road (Z.of_nat n) (n - 1).
Proof.
  intros Hn. unfold Peeled.edge_cell, Serial.new_cell, Peeled.rdz.
  change (Z.rem (Z.of_nat (n - 1) - 1 + Z.of_nat n) (Z.of_nat n))
    with (left_neighbor (Z.of_nat (n - 1)) (Z.of_nat n)).
  change (Z.rem (Z.of_nat (n - 1) + 1) (Z.of_nat n))
    with (right_neighbor (Z.of_nat (n - 1)) (Z.of_nat n)).
  rewrite left_neighbor_cases, right_neighbor_cases by lia.
  rewrite !decide_True by lia. rewrite decide_False by lia.
  replace (Z.to_nat (Z.of_nat n - 1)) with (n - 1)%nat by lia.
  replace (Z.to_nat (Z.of_nat n - 2)) with (Z.to_nat (Z.of_nat (n - 1) - 1))
    by lia.
  by rewrite decide_True by lia.
Qed.

Lemma peeled_cell_inner old_road (n i : nat) :
  (1 ≤ i)%nat → (i + 1 < n)%nat →
  new_cell old_road i = Serial.new_cell old_road (Z.of_nat n) i.
Proof.
  intros Hi Hn. unfold new_cell, Serial.new_cell.
  rewrite ring_left_index, ring_right_index by lia.
  replace (i + n - 1)%nat with (i - 1 + 1 * n)%nat by lia.
  rewrite Nat.Div0.mod_add, !Nat.mod_small by lia. done.
Qed.

Lemma peeled_leaves_first old_road (n : nat) :
  (2 ≤ n)%nat →
  Peeled.edge_leaves old_road 0 1 = Serial.car_leaves old_road (Z.of_nat n) 0.
Proof.
  intros Hn. unfold Peeled.edge_leaves, Serial.car_leaves, Peeled.rdz.
  rewrite (ring_right_index 0 n), Nat.mod_small by lia. done.
Qed.

Lemma peeled_leaves_last old_road (n : nat) :
  (2 ≤ n)%nat →
  Peeled.edge_leaves old_road (Z.of_nat n - 1) 0
  = Serial.car_leaves old_road (Z.of_nat n) (n - 1).
Proof.
  intros Hn. unfold Peeled.edge_leaves, Serial.car_leaves, Peeled.rdz.
  rewrite (ring_right_index (n - 1) n) by lia.
  replace (n - 1 + 1)%nat with n by lia. rewrite Nat.Div0.mod_same.
  rewrite !decide_True by lia.
  by replace (Z.to_nat (Z.of_nat n - 1)) with (n - 1)%nat by lia.
Qed.

Lemma peeled_leaves_inner old_road (n i : nat) :
  (i + 1 < n)%nat →
  car_leaves old_road i = Serial.car_leaves old_road (Z.of_nat n) i.
Proof.
  intros Hn. unfold car_leaves, Serial.car_leaves.
  by rewrite ring_right_index, Nat.mod_small by lia.
Qed.

(** X12: On a road of at least two cells the loop-peeled [update_step] of the
    optimised sequential program computes the same road and the same
    count as the [update_step] with modular indices. *)
Theorem peeled_update_step_eq (old_road new_road : list Z) (n : nat) :
  (2 ≤ n)%nat → length old_road = n → length new_road = n →
  Peeled.update_step old_road new_road (Z.of_nat n)
  = Serial.update_step old_road new_road (Z.of_nat n).
Proof.
  intros Hn Hold Hnew.
  rewrite (surjective_pairing (Serial.update_step _ _ _)).
  rewrite serial_update_step_road, serial_update_step_moved, Nat2Z.id.
  unfold Peeled.update_step. rewrite update_fold.
  replace (Z.to_nat (Z.of_nat n - 2)) with (n - 2)%nat by lia.
  unfold Peeled.wrz. rewrite !decide_True by lia.
  replace (Z.to_nat (Z.of_nat n - 1)) with (n - 1)%nat by lia.
  change (Z.to_nat 0) with 0%nat.
  rewrite peeled_cell_first, peeled_cell_last by done.
  rewrite peeled_leaves_first with (n := n), peeled_leaves_last by done.
  f_equal.
  - apply list_eq. intros j.
    change (foldl _ (<[0%nat := ?v]> new_road) (seq 1 (n - 2)))
      with (write_loop (new_cell old_road) (<[0%nat := v]> new_road) 1 (n - 2)).
    rewrite (write_loop_lookup _ new_road).
    destruct (decide (j = n - 1)%nat) as [->|Hj].
    + rewrite list_lookup_insert_eq
        by (rewrite length_write_loop, length_insert; lia).
      case_decide; [done|lia].
    + rewrite list_lookup_insert_ne by done.
      rewrite write_loop_lookup, length_insert.
      destruct (decide (j = 0)%nat) as [->|Hj0].
      * rewrite decide_False by lia.
        rewrite list_lookup_insert_eq by lia. case_decide; [done|lia].
      * rewrite list_lookup_insert_ne by done.
        repeat case_decide; try done; try lia.
        f_equal. apply peeled_cell_inner; lia.
  - assert (Hseq : seq 0 n = 0%nat :: seq 1 (n - 2) ++ [(n - 1)%nat]).
    { replace n with (1 + ((n - 2) + 1))%nat at 1 by lia.
      rewrite (seq_app 1), (seq_app (n - 2)). simpl. do 3 f_equal. lia. }
    rewrite Hseq, filter_cons, filter_app, filter_cons, filter_nil.
    rewrite (filter_ext_in (λ i, car_leaves old_road i = true)
               (λ i, Serial.car_leaves old_road (Z.of_nat n) i = true))
      by (intros i Hi%elem_of_seq; by rewrite (peeled_leaves_inner _ n) by lia).
    destruct (Serial.car_leaves old_road (Z.of_nat n) 0),
      (Serial.car_leaves old_road (Z.of_nat n) (n - 1));
      repeat case_decide; try done; simpl; rewrite ?length_app; simpl; lia.
Qed.

Lemma peeled_update_step_eq_witness :
  Peeled.update_step [1; 1; 0; 1; 0; 0; 1] [7; 7; 7; 7; 7; 7; 7] 7
  = Serial.update_step [1; 1; 0; 1; 0; 0; 1] [7; 7; 7; 7; 7; 7; 7] 7.
Proof.
  apply (peeled_update_step_eq [1; 1; 0; 1; 0; 0; 1] [7; 7; 7; 7; 7; 7; 7] 7);
    [lia | reflexivity | reflexivity].
Defined.

(** ** Gathering the road *)

Lemma copy_loop_lookup (src buf : list Z) (d c i : nat) :
  foldl (λ buf j, <[(d + j)%nat := rd src (1 + j)%nat]> buf) buf (seq 0 c) !! i
  = if decide ((d ≤ i < d + c)%nat ∧ (i < length buf)%nat)
    then Some (rd src (1 + (i - d))) else buf !! i.
Proof.
  rewrite <- (write_loop_lookup (λ i, rd src (1 + (i - d))) buf d c i).
  f_equal. unfold write_loop.
  replace (seq d c) with (Nat.add d <$> seq 0 c)
    by (rewrite fmap_add_seq; f_equal; lia).
  rewrite foldl_fmap. revert buf.
  induction (seq 0 c) as [|j l IH]; intros buf; [done|].
  cbn [foldl]. rewrite IH. do 3 f_equal. lia.
Qed.

Lemma owned_lookup p (j : nat) :
  (j < Z.to_nat (local_n p))%nat →
  length (road_current p) = Z.to_nat (local_n p + 2) →
  owned p !! j = Some (rd (road_current p) (1 + j)).
Proof.
  intros Hj Hlen. unfold owned, rd.
  rewrite lookup_take_lt, lookup_drop by done.
  destruct (lookup_lt_is_Some_2 (road_current p) (1 + j)) as [x Hx]; [lia|].
  by rewrite Hx.
Qed.

Lemma gather_prefix (w : list worker) (buf counts offsets : list Z) (k : nat) :
  ring_world w →
  length buf = length (lattice w) →
  (∀ r p, w !! r = Some p →
     local_n p = rd counts r ∧
     Z.to_nat (rd offsets r) = length (concat (owned <$> take r w))) →
  (k ≤ length w)%nat →
  let d := length (concat (owned <$> take k w)) in
  foldl (gather_rank w counts offsets) (Some buf) (seq 0 k)
  = Some (take d (lattice w) ++ drop d buf).
Proof.
  intros Hw Hbuf Hlay. induction k as [|k IH]; intros Hk d.
  - simpl. by rewrite drop_0.
  - rewrite seq_S, foldl_app, IH by lia. cbn [foldl gather_rank]. simpl.
    destruct (lookup_lt_is_Some_2 w k) as [p Hp]; [lia|].
    rewrite Hp. simpl.
    destruct (Hlay k p Hp) as [Hc Ho]. destruct (Hw k p Hp) as [_ _ Hn Hcur _].
    rewrite decide_True by done. f_equal.
    rewrite <- Hc, Ho.
    set (d0 := length (concat (owned <$> take k w))) in *.
    assert (Hsplit : lattice w
      = concat (owned <$> take k w) ++ owned p
          ++ concat (owned <$> drop (S k) w)).
    { unfold lattice. rewrite <- (take_drop_middle w k p Hp) at 1.
      by rewrite fmap_app, concat_app, fmap_cons. }
    assert (Hd : d = (d0 + Z.to_nat (local_n p))%nat).
    { unfold d, d0. rewrite (take_S_r w k p Hp), fmap_app, concat_app.
      rewrite length_app. simpl. rewrite app_nil_r, owned_length by done. lia. }
    assert (Hlen : (d ≤ length (lattice w))%nat).
    { rewrite Hsplit, !length_app, owned_length by done. fold d0. lia. }
    apply list_eq. intros i. rewrite copy_loop_lookup.
    rewrite length_app, length_take, length_drop.
    case_decide as Hi.
    + rewrite lookup_app_l by (rewrite length_take; lia).
      rewrite lookup_take_lt by lia.
      rewrite Hsplit, lookup_app_r by (fold d0; lia). fold d0.
      rewrite lookup_app_l by (rewrite owned_length by done; lia).
      symmetry. apply owned_lookup; [lia|done].
    + destruct (decide (i < d0)%nat).
      * rewrite !lookup_app_l by (rewrite length_take; lia).
        by rewrite !lookup_take_lt by lia.
      * rewrite !lookup_app_r by (rewrite length_take; lia).
        rewrite !length_take, !lookup_drop. f_equal. lia.
Qed.

Lemma partitioned_offsets n (w : list worker) (r : nat) :
  0 ≤ n → (1 ≤ length w)%nat → (r ≤ length w)%nat →
  ring_world w → partitioned n w →
  length (concat (owned <$> take r w))
  = Z.to_nat (offset_of n (Z.of_nat (length w)) r).
Proof.
  intros Hn Hsize Hr Hw Hpart. induction r as [|r IH].
  - simpl. unfold offset_of. lia.
  - destruct (lookup_lt_is_Some_2 w r) as [p Hp]; [lia|].
    rewrite (take_S_r w r p Hp), fmap_app, concat_app, length_app, IH by lia.
    destruct (Hw r p Hp) as [_ _ Hl Hcur _].
    simpl. rewrite app_nil_r, owned_length by done.
    rewrite offset_of_succ, (Hpart r p Hp).
    pose proof (offset_of_nonneg n (Z.of_nat (length w)) r Hn ltac:(lia)).
    rewrite (Hpart r p Hp) in Hl. lia.
Qed.

Lemma gatherv_lattice (n : Z) (w : list worker) :
  0 ≤ n → (1 ≤ length w)%nat → ring_world w → partitioned n w →
  MPI_Gatherv w (calloc n) (recvcounts n (Z.of_nat (length w)))
              (displs n (Z.of_nat (length w)))
  = Some (lattice w)
  ∧ length (lattice w) = Z.to_nat n.
Proof.
  intros Hn Hsize Hw Hpart.
  assert (Hlen : length (lattice w) = Z.to_nat n).
  { pose proof (partitioned_offsets n w (length w) Hn Hsize ltac:(lia) Hw Hpart)
      as H.
    rewrite firstn_all in H. unfold lattice. rewrite H.
    replace (length w) with (Z.to_nat (Z.of_nat (length w))) at 2 by lia.
    rewrite offset_of_total by lia. done. }
  split; [|done].
  unfold MPI_Gatherv.
  rewrite (gather_prefix w (calloc n) _ _ (length w)); try done.
  - rewrite firstn_all. fold (lattice w).
    rewrite take_ge, drop_ge by (rewrite ?calloc_length; lia).
    by rewrite app_nil_r.
  - by rewrite calloc_length.
  - intros r p Hp. pose proof (lookup_lt_Some _ _ _ Hp) as Hr.
    unfold rd. rewrite recvcounts_lookup, displs_lookup by lia. simpl.
    split; [by apply Hpart|].
    symmetry. apply partitioned_offsets; try done. lia.
Qed.

(** X13: [gather_and_print] on a partitioned group completes: the buffer that
    rank 0 assembles is the ring of owned cells in rank order, [n] cells
    long and without any ghost cell, and the line it prints is the one
    [print_road] prints for that road. *)
Theorem gather_and_print_lattice (n : Z) (w : list worker) :
  0 ≤ n → (1 ≤ length w)%nat → ring_world w → partitioned n w →
  gather_and_print w n = Some (lattice w, Serial.print_road (lattice w) n)
  ∧ length (lattice w) = Z.to_nat n.
Proof.
  intros Hn Hsize Hw Hpart.
  destruct (gatherv_lattice n w Hn Hsize Hw Hpart) as [Hg Hlen].
  split; [|done]. unfold gather_and_print. by rewrite Hg.
Qed.

Lemma launch_partitioned n size draws :
  0 ≤ size → partitioned n (launch n size draws).
Proof.
  intros Hs r p Hp.
  pose proof (lookup_lt_Some _ _ _ Hp) as Hr. rewrite launch_length in Hr.
  rewrite launch_lookup in Hp by done. injection Hp as <-.
  rewrite launch_length, Z2Nat.id by lia. done.
Qed.

Lemma gather_and_print_lattice_witness :
  gather_and_print (launch 5 2 (λ _ i, Nat.even i)) 5
  = Some (lattice (launch 5 2 (λ _ i, Nat.even i)),
          Serial.print_road (lattice (launch 5 2 (λ _ i, Nat.even i))) 5).
Proof.
  apply (gather_and_print_lattice 5 (launch 5 2 (λ _ i, Nat.even i))).
  - lia.
  - simpl. lia.
  - apply launch_ring_world; lia.
  - apply launch_partitioned. lia.
Defined.

Lemma iteration_partitioned n w w' :
  ring_world w → populated w → partitioned n w → iteration w = Some w' →
  partitioned n w'.
Proof.
  intros Hw Hpop Hpart. rewrite iteration_ring by done.
  intros [= <-] r p' Hp'.
  rewrite !length_fmap. rewrite !list_lookup_fmap in Hp'.
  destruct (w !! r) as [p|] eqn:Hp; [|done]. injection Hp' as <-.
  rewrite compute_local_n. exact (Hpart r p Hp).
Qed.

Lemma main_loop_partitioned n t : ∀ w w',
  ring_world w → populated w → partitioned n w → main_loop t w = Some w' →
  ring_world w' ∧ partitioned n w'.
Proof.
  induction t as [|t IH]; intros w w' Hw Hpop Hpart Hrun.
  - by injection Hrun as <-.
  - cbn [main_loop] in Hrun.
    pose proof (iteration_ring w Hw Hpop) as Hit. rewrite Hit in Hrun.
    simpl in Hrun. eapply IH; [| | |exact Hrun].
    + by eapply iteration_ring_world.
    + by eapply iteration_populated.
    + by eapply iteration_partitioned.
Qed.

(** X14: After any number of iterations on processes that each own a cell,
    [gather_and_print] assembles at rank 0 the road the sequential
    program has after as many iterations, and prints the same line. *)
Theorem gather_after_run (road : list Z) (size : Z) (t : nat) :
  binary road → 1 ≤ size ≤ Z.of_nat (length road) →
  let n := Z.of_nat (length road) in
  ∃ w, main_loop t (scatter road size) = Some w
       ∧ gather_and_print w n
         = Some (Serial.run t road, Serial.print_road (Serial.run t road) n).
Proof.
  intros Hb Hs n. unfold scatter. fold n.
  pose proof (launch_ring_world n size (deal road size) ltac:(lia) ltac:(lia))
    as Hw0.
  destruct (main_loop_ring t _ Hw0 (launch_populated n size _ Hs))
    as (w & Hrun & Hw & _ & Hlat).
  exists w. split; [done|].
  destruct (main_loop_partitioned n t _ _ Hw0 (launch_populated n size _ Hs)
              (launch_partitioned n size _ ltac:(lia)) Hrun) as [_ Hpart].
  assert (Hsize : (1 ≤ length w)%nat).
  { pose proof (iter_ring_rule_length t (lattice (launch n size (deal road size))))
      as Hl.
    rewrite <- Hlat in Hl.
    change (launch n size (deal road size)) with (scatter road size) in Hl.
    rewrite lattice_scatter in Hl by first [done | lia].
    destruct w; [simpl in Hl; lia|simpl; lia]. }
  destruct (gatherv_lattice n w ltac:(lia) Hsize Hw Hpart) as [Hg _].
  unfold gather_and_print. rewrite Hg. cbn [mbind option_bind].
  rewrite Hlat, serial_run_ring.
  change (launch n size (deal road size)) with (scatter road size).
  by rewrite lattice_scatter by first [done | lia].
Qed.

Lemma gather_after_run_witness :
  ∃ w, main_loop 3 (scatter [1; 1; 0; 1; 0] 2) = Some w
       ∧ gather_and_print w 5
         = Some (Serial.run 3 [1; 1; 0; 1; 0],
                 Serial.print_road (Serial.run 3 [1; 1; 0; 1; 0]) 5).
Proof.
  apply (gather_after_run [1; 1; 0; 1; 0] 2 3); [|simpl; lia].
  unfold binary.
  repeat (constructor; [first [left; reflexivity | right; reflexivity]|]).
  constructor.
Defined.

(** ** Cars moved, summed over the group *)

Lemma car_leaves_window xs : ∀ pre a b post,
  Z.of_nat (length (filter
    (λ i, car_leaves (pre ++ a :: xs ++ b :: post) i = true)
    (seq (S (length pre)) (length xs))))
  = leaving xs b.
Proof.
  induction xs as [|c rest IH]; intros pre a b post; [done|].
  cbn [length seq leaving]. rewrite filter_cons.
  specialize (IH (pre ++ [a]) c b post).
  rewrite length_app, <- app_assoc in IH. simpl in IH.
  rewrite Nat.add_1_r in IH. rewrite <- IH.
  assert (Hc : car_leaves (pre ++ a :: (c :: rest) ++ b :: post) (S (length pre))
               = truthy c && negb (truthy (hd b rest))).
  { unfold car_leaves.
    replace (S (length pre) + 1)%nat with (length pre + 2)%nat by lia.
    replace (S (length pre)) with (length pre + 1)%nat by lia.
    rewrite !rd_app_r. by destruct rest. }
  unfold moves. simpl in *. rewrite Hc.
  destruct (truthy c && negb (truthy (hd b rest))); case_decide; try done;
    simpl; lia.
Qed.

Lemma leaving_app xs : ∀ ys b,
  leaving (xs ++ ys) b = leaving xs (hd b ys) + leaving ys b.
Proof.
  induction xs as [|c rest IH]; intros ys b; [simpl; lia|].
  simpl. rewrite IH.
  replace (hd b (rest ++ ys)) with (hd (hd b ys) rest) by by destruct rest.
  lia.
Qed.

Lemma leaving_windows_sum segs b :
  foldr Z.add 0 (leaving_windows segs b) = leaving (concat segs) b.
Proof.
  induction segs as [|s rest IH]; [done|].
  simpl. rewrite IH, leaving_app. done.
Qed.

Lemma leaving_windows_length segs b :
  length (leaving_windows segs b) = length segs.
Proof. induction segs; simpl; auto. Qed.

Lemma leaving_windows_lookup segs : ∀ b r s,
  nonempty segs → segs !! r = Some s →
  leaving_windows segs b !! r
  = Some (leaving s (match segs !! S r with Some s' => hd 0 s' | None => b end)).
Proof.
  induction segs as [|s0 rest IH]; intros b r s Hne Hs; [done|].
  apply Forall_cons in Hne as [Hs0 Hrest].
  destruct r as [|r]; simpl in *.
  - injection Hs as ->. do 2 f_equal.
    destruct rest as [|s' rest']; [done|].
    apply Forall_cons in Hrest as [Hs' _]. simpl. by destruct s'.
  - by apply IH.
Qed.

Lemma filter_shift_length (P : nat → Prop) `{∀ i, Decision (P i)} (s len : nat) :
  length (filter P (seq (S s) len)) = length (filter (λ i, P (S i)) (seq s len)).
Proof.
  revert s. induction len as [|len IH]; intros s; [done|].
  cbn [seq]. rewrite !filter_cons. simpl.
  destruct (decide (P (S s))); simpl; by rewrite IH.
Qed.

Lemma serial_moved_leaving (road new_road : list Z) :
  (Serial.update_step road new_road (Z.of_nat (length road))).2
  = leaving road (hd 0 road).
Proof.
  rewrite serial_update_step_moved, Nat2Z.id.
  rewrite <- (car_leaves_window road [] 0 (hd 0 road) []).
  cbn [length app]. rewrite filter_shift_length. do 2 f_equal.
  apply filter_ext_in. intros i Hi%elem_of_seq.
  unfold Serial.car_leaves, car_leaves.
  rewrite ring_right_index by lia.
  assert (Hmid : ∀ j, (j < length road)%nat →
            rd (0 :: road ++ [hd 0 road]) (S j) = rd road j).
  { intros j Hj. change (rd (road ++ [hd 0 road]) j = rd road j).
    by apply rd_app_l. }
  rewrite Hmid by lia.
  replace (S i + 1)%nat with (S (S i)) by lia.
  destruct (decide (S i = length road)) as [Hlast|Hlast].
  - replace (i + 1)%nat with (length road) by lia.
    rewrite Nat.Div0.mod_same, Hlast.
    change (rd (0 :: road ++ [hd 0 road]) (S (length road)))
      with (rd (road ++ [hd 0 road]) (length road)).
    rewrite rd_middle, hd_lookup. done.
  - rewrite Nat.mod_small by lia. rewrite Hmid by lia.
    by replace (i + 1)%nat with (S i) by lia.
Qed.

(** X15: The counts returned by [update_step] on the processes of one
    iteration add up to the count the sequential [update_step] returns on
    the whole road, when every process owns a cell. *)
Theorem moved_total (w w1 : list worker) (new_road : list Z) :
  ring_world w → populated w → exchange w = Some w1 →
  foldr Z.add 0
    ((λ p, (update_step (road_current p) (road_next p) (local_n p)).2) <$> w1)
  = (Serial.update_step (lattice w) new_road
                        (Z.of_nat (length (lattice w)))).2.
Proof.
  intros Hw Hpop. rewrite exchange_ring by done. intros [= <-].
  rewrite serial_moved_leaving.
  unfold lattice at 1. rewrite <- leaving_windows_sum. f_equal.
  rewrite <- list_fmap_compose.
  apply list_eq. intros r. rewrite list_lookup_fmap.
  destruct (w !! r) as [p|] eqn:Hp; simpl.
  - destruct (Hw r p Hp) as [_ _ Hn Hc Hx].
    rewrite (leaving_windows_lookup _ _ r (owned p));
      [|by apply owned_nonempty|by rewrite list_lookup_fmap, Hp].
    f_equal. rewrite update_step_moved.
    rewrite <- (ghost_right_ring w r p) by done.
    rewrite <- (car_leaves_window (owned p) [] (ghost_left w p) _ []).
    cbn [length app]. rewrite owned_length by done.
    by rewrite <- halo_shape by done.
  - symmetry. apply lookup_ge_None_2.
    rewrite leaving_windows_length, length_fmap. by apply lookup_ge_None_1.
Qed.

Lemma moved_total_witness :
  foldr Z.add 0
    ((λ p, (update_step (road_current p) (road_next p) (local_n p)).2)
       <$> (with_halo (scatter [1; 1; 0; 1; 0] 2) <$> scatter [1; 1; 0; 1; 0] 2))
  = (Serial.update_step (lattice (scatter [1; 1; 0; 1; 0] 2)) (calloc 5)
       (Z.of_nat (length (lattice (scatter [1; 1; 0; 1; 0] 2))))).2.
Proof.
  apply (moved_total (scatter [1; 1; 0; 1; 0] 2)).
  - apply launch_ring_world; simpl; lia.
  - apply launch_populated; simpl; lia.
  - reflexivity.
Defined.

(** ** Printing, initialising and the velocity of the sequential program *)

Lemma print_road_fold (road : list Z) (l : list nat) :
  String.length
    (foldr (λ i out,
              String (if truthy (rd road i) then "X" else ".")%char out)
           (String "010"%char EmptyString) l)
  = S (length l)
  ∧ Z.of_nat (occurrences "X"
      (foldr (λ i out,
                String (if truthy (rd road i) then "X" else ".")%char out)
             (String "010"%char EmptyString) l))
    = Z.of_nat (length (filter (λ i, truthy (rd road i) = true) l)).
Proof.
  induction l as [|i l [IH1 IH2]]; [done|].
  cbn [foldr String.length occurrences length]. rewrite IH1. split; [done|].
  rewrite filter_cons.
  destruct (truthy (rd road i)); case_decide; try done; simpl in *; lia.
Qed.

Lemma binary_truthy_sum (road : list Z) (l : list nat) :
  binary road →
  Z.of_nat (length (filter (λ i, truthy (rd road i) = true) l))
  = sum_cells (rd road <$> l).
Proof.
  intros Hb. unfold sum_cells. induction l as [|i l IH]; [done|].
  rewrite filter_cons, fmap_cons. cbn [foldr]. rewrite <- IH.
  destruct (binary_rd road i Hb) as [-> | ->]; case_decide; try done;
    simpl; lia.
Qed.

(** X16: [print_road] writes one character per cell and a newline; on a road
    of 0/1 cells the number of [X] it writes is what [count_cars]
    returns. *)
Theorem print_road_count (road : list Z) (n : Z) :
  0 ≤ n → binary road →
  String.length (Serial.print_road road n) = S (Z.to_nat n)
  ∧ Z.of_nat (occurrences "X" (Serial.print_road road n))
    = Serial.count_cars road n.
Proof.
  intros Hn Hb. unfold Serial.print_road, Serial.count_cars.
  destruct (print_road_fold road (seq 0 (Z.to_nat n))) as [H1 H2].
  rewrite H1, H2, length_seq. split; [done|].
  rewrite binary_truthy_sum, foldl_add_sum by done. lia.
Qed.

Lemma print_road_count_witness :
  Z.of_nat (occurrences "X" (Serial.print_road [1; 1; 0; 1] 4))
  = Serial.count_cars [1; 1; 0; 1] 4.
Proof.
  apply (print_road_count [1; 1; 0; 1] 4); [lia|].
  unfold binary.
  repeat (constructor; [first [left; reflexivity | right; reflexivity]|]).
  constructor.
Defined.

(** X17: [initialize_road] overwrites a road of [n] cells in full: the result
    holds 1 where the draw succeeds and 0 elsewhere, whatever the buffer
    held, and [count_cars] returns the number of successful draws. *)
Theorem initialize_road_spec (road : list Z) (n : nat) (draws : nat → bool) :
  length road = n →
  Serial.initialize_road road (Z.of_nat n) draws
  = (λ i, if draws i then 1 else 0) <$> seq 0 n
  ∧ binary (Serial.initialize_road road (Z.of_nat n) draws)
  ∧ Serial.count_cars (Serial.initialize_road road (Z.of_nat n) draws)
                      (Z.of_nat n)
    = Z.of_nat (length (filter (λ i, draws i = true) (seq 0 n))).
Proof.
  intros Hlen.
  assert (Heq : Serial.initialize_road road (Z.of_nat n) draws
                = (λ i, if draws i then 1 else 0) <$> seq 0 n).
  { unfold Serial.initialize_road. rewrite Nat2Z.id.
    pose proof (write_loop_window (λ i, if draws i then 1 else 0) road 0 n
                  ltac:(lia)) as H.
    rewrite drop_0, take_ge in H by (rewrite length_write_loop; lia).
    exact H. }
  rewrite Heq. split; [done|]. split.
  - unfold binary. rewrite Forall_fmap. apply Forall_forall. intros i _.
    simpl. destruct (draws i); auto.
  - rewrite <- sum_cells_b2z.
    replace (Z.of_nat n)
      with (Z.of_nat (length ((λ i, if draws i then 1 else 0) <$> seq 0 n)))
      by (by rewrite length_fmap, length_seq).
    apply serial_count_cars_sum.
Qed.

Lemma initialize_road_spec_witness :
  Serial.initialize_road [9; 9; 9; 9] 4 Nat.even = [1; 0; 1; 0].
Proof.
  destruct (initialize_road_spec [9; 9; 9; 9] 4 Nat.even) as [H _];
    [reflexivity | exact H].
Defined.

Lemma leaving_bounds xs b :
  binary xs → 0 ≤ leaving xs b ≤ sum_cells xs.
Proof.
  intros Hb. unfold sum_cells.
  induction Hb as [|c rest Hc _ IH]; [simpl; lia|].
  cbn [leaving foldr]. unfold moves.
  destruct Hc as [-> | ->]; destruct (truthy (hd b rest)); simpl; lia.
Qed.

(** X18: In the sequential program the count [update_step] returns is never
    negative and never above the number of cars on the road, so the
    velocity [cars_moved / total_cars] lies between 0 and 1. *)
Theorem serial_moved_bounds (road new_road : list Z) :
  binary road →
  let n := Z.of_nat (length road) in
  0 ≤ (Serial.update_step road new_road n).2 ≤ Serial.count_cars road n.
Proof.
  intros Hb n. unfold n.
  rewrite serial_moved_leaving, serial_count_cars_sum.
  by apply leaving_bounds.
Qed.

Lemma serial_moved_bounds_witness :
  0 ≤ (Serial.update_step [1; 1; 0; 1] [0; 0; 0; 0] 4).2
    ≤ Serial.count_cars [1; 1; 0; 1] 4.
Proof.
  apply (serial_moved_bounds [1; 1; 0; 1] [0; 0; 0; 0]).
  unfold binary.
  repeat (constructor; [first [left; reflexivity | right; reflexivity]|]).
  constructor.
Defined.
